(** * Binance futures radar: the scan pipeline of [app.js]

    A shallow embedding of the canonical variant of the scanner (the one
    with the product feed, the rank map and the concurrent worker pool):
    the indicator [calculateRSI], the product accessor [fetchProductData]
    and the kline accessor [fetchKlines] with their time-bounded caches,
    the rank map and the rank resolution of [updateData], the staged
    evaluation [processSymbol], the [worker] loop and the aggregation at
    the end of [updateData]; then the four metadata accessors, the
    gathering of the metadata at the start of a cycle and the rows
    [renderTable] makes of the list it is handed; and the scan loop of
    the variant that works through the candidates in batches.  The
    layout of the page, the progress texts, the clipboard handler and
    the wake lock are not embedded.

    Numbers.  Every number the pipeline computes with is a price, a volume
    or a rate parsed from a decimal string, or a value derived from those
    by [+ - * /].  They are exact rationals [Q] here: the rounding of IEEE
    doubles, [NaN] and the infinities are outside this development, and so
    is division by zero (the only divisor that can be zero is the
    smoothing period, and every statement that goes through a division
    assumes a period of at least 1).  Array indices, lengths, ranks and the
    smoothing period are natural numbers; clock readings are integers.

    Objects used as dictionaries ([stats], [baseMap], [rankMap], the kline
    cache) are finite maps keyed by strings.

    Asynchrony.  The script runs on one thread and yields at [await].  A
    suspended [processSymbol] is a [Task]; the workers of the pool are
    resumed one at a time, in an order given by a schedule, and everything
    a worker does between two suspensions happens in one piece.  A call of
    [fetchKlines] is one such piece.  Statements about the pool hold for
    every schedule. *)

From Stdlib Require Import QArith Qabs Lia Lqa List Sorted Permutation.
From stdpp Require Import gmap strings list sorting pretty.

(** ** Numbers *)

Module Num.

(** [x < y] on numbers, as a test. *)
Definition Qlt_bool (x y : Q) : bool := negb (Qle_bool y x).

(** An integer read as a number. *)
Definition of_nat (n : nat) : Q := inject_Z (Z.of_nat n).

(** [v || d] on a number: [0] is falsy. *)
Definition or_default (v d : Q) : Q := if Qeq_bool v 0 then d else v.

End Num.

(** ** Indicator: [calculateRSI] *)

Module RSI.
Import Num.
Local Open Scope Q_scope.

(** [closes[i]]; every index the two loops read is below [closes.length]
    (see [seed_indices_in_range] and [smooth_indices_in_range]). *)
Definition at_index (closes : list Q) (i : nat) : Q := nth i closes 0.

(** Body of the first loop, on the pair [(gains, losses)]. *)
Definition seed_step (closes : list Q) (acc : Q * Q) (i : nat) : Q * Q :=
  let diff := at_index closes i - at_index closes (i - 1) in
  if Qle_bool 0 diff
  then (fst acc + diff, snd acc)
  else (fst acc, snd acc + Qabs diff).

(** Body of the second loop, on the pair [(avgGain, avgLoss)]. *)
Definition smooth_step (closes : list Q) (period : nat) (acc : Q * Q) (i : nat) : Q * Q :=
  let diff := at_index closes i - at_index closes (i - 1) in
  let currentGain := if Qlt_bool 0 diff then diff else 0 in
  let currentLoss := if Qlt_bool diff 0 then Qabs diff else 0 in
  ((fst acc * (of_nat period - 1) + currentGain) / of_nat period,
   (snd acc * (of_nat period - 1) + currentLoss) / of_nat period).

(** [for (let i = 1; i <= period; i++)] *)
Definition seed_indices (period : nat) : list nat := seq 1 period.

(** [for (let i = period + 1; i < closes.length; i++)] *)
Definition smooth_indices (closes : list Q) (period : nat) : list nat :=
  seq (period + 1) (length closes - (period + 1)).

Definition calculateRSI (closes : list Q) (period : nat) : Q :=
  if (length closes <? period + 1)%nat then 0
  else
    let seeded := fold_left (seed_step closes) (seed_indices period) (0, 0) in
    let avgGain := fst seeded / of_nat period in
    let avgLoss := snd seeded / of_nat period in
    let smoothed :=
      fold_left (smooth_step closes period) (smooth_indices closes period)
                (avgGain, avgLoss) in
    if Qeq_bool (snd smoothed) 0 then 100
    else
      let rs := fst smoothed / snd smoothed in
      100 - 100 / (1 + rs).

(** The default of the parameter: [period = 14]. *)
Definition calculateRSI_default (closes : list Q) : Q := calculateRSI closes 14.

End RSI.

(** ** Built-ins of the language the pipeline relies on *)

Module JS.

(** [Array.prototype.sort(comparator)].  The sort is stable, and with a
    consistent comparator its result is the one stable ordering, computed
    here by insertion: an element goes in front of the first element it
    does not have to follow ([comparator(x, y) <= 0]). *)
Section Sort.
Context {A : Type} (comparator : A -> A -> Q).

Fixpoint insert (x : A) (l : list A) : list A :=
  match l with
  | [] => [x]
  | y :: ys =>
      if Qle_bool (comparator x y) 0 then x :: y :: ys
      else y :: insert x ys
  end.

Fixpoint sort (l : list A) : list A :=
  match l with
  | [] => []
  | x :: xs => insert x (sort xs)
  end.
End Sort.

(** Descending order of a numeric key: [a] may stand in front of [b]. *)
Definition key_desc {A : Type} (key : A -> Q) (a b : A) : Prop :=
  (key b <= key a)%Q.

(** [s.startsWith(p)] *)
Definition startsWith (s p : string) : bool := String.prefix p s.

(** [s.substring(n)]: the string without its first [n] characters. *)
Fixpoint substring_from (n : nat) (s : string) : string :=
  match n, s with
  | O, _ => s
  | S _, EmptyString => EmptyString
  | S n', String _ s' => substring_from n' s'
  end.

(** [s.replace(pat, '')] with a string pattern: the first occurrence of
    [pat] is removed, the rest of the string is kept. *)
Fixpoint remove_first (pat s : string) : string :=
  if String.prefix pat s then substring_from (String.length pat) s
  else
    match s with
    | EmptyString => EmptyString
    | String ch s' => String ch (remove_first pat s')
    end.

(** Truthiness of a looked-up number: [undefined] and [0] are falsy. *)
Definition truthy_nat (v : option nat) : bool :=
  match v with
  | Some (S _) => true
  | _ => false
  end.

(** Truthiness of a looked-up string: [undefined] and [''] are falsy. *)
Definition truthy_string (v : option string) : bool :=
  match v with
  | Some (String _ _) => true
  | _ => false
  end.

End JS.

(** ** Rank map and rank resolution *)

Module Rank.
Import Num.

(** An entry of the product feed: quote asset [q], base asset [b], last
    price [c] and circulating supply [cs].  [None] stands for a field that
    is missing ([null], [undefined]) or does not parse as a number. *)
Record Product := {
  item_q : string;
  item_b : string;
  item_c : option Q;
  item_cs : option Q
}.

Record McapEntry := { base : string; mcap : Q }.

(** The body of [productList.forEach(item => ...)]: what is pushed on
    [mcapList] for one item, if anything. *)
Definition mcap_entry (item : Product) : option McapEntry :=
  match item_cs item with
  | Some cs_value =>
      if String.eqb (item_q item) "USDT" && negb (Qeq_bool cs_value 0) then
        let price := default 0%Q (item_c item) in
        let cs := cs_value in
        if Qlt_bool 0 price && Qlt_bool 0 cs
        then Some {| base := item_b item; mcap := (price * cs)%Q |}
        else None
      else None
  | None => None
  end.

Definition mcapList (productList : list Product) : list McapEntry :=
  omap mcap_entry productList.

(** [(a, b) => b.mcap - a.mcap] *)
Definition by_mcap_desc (a b : McapEntry) : Q := (mcap b - mcap a)%Q.

Definition sorted_mcapList (productList : list Product) : list McapEntry :=
  JS.sort by_mcap_desc (mcapList productList).

(** The body of [mcapList.forEach((item, index) => ...)]. *)
Definition assign_rank (rankMap : gmap string nat) (item : McapEntry) (index : nat)
  : gmap string nat :=
  if negb (JS.truthy_nat (rankMap !! base item))
  then <[base item := index + 1]> rankMap
  else rankMap.

(** [forEach] from position [index] on. *)
Fixpoint assign_ranks (items : list McapEntry) (index : nat) (rankMap : gmap string nat)
  : gmap string nat :=
  match items with
  | [] => rankMap
  | item :: rest => assign_ranks rest (S index) (assign_rank rankMap item index)
  end.

Definition buildRankMap (productList : list Product) : gmap string nat :=
  assign_ranks (sorted_mcapList productList) 0 ∅.

(** The value of the [rank] field: a number or the marker ['N/A']. *)
Inductive RankValue :=
| RankNumber (r : nat)
| RankNA.

(** [baseMap[symbol] || symbol.replace('USDT', '')] *)
Definition baseAssetOf (baseMap : gmap string string) (symbol : string) : string :=
  if JS.truthy_string (baseMap !! symbol)
  then default EmptyString (baseMap !! symbol)
  else JS.remove_first "USDT" symbol.

(** The immediately invoked function that computes the [rank] field of a
    match. *)
Definition resolveRank (baseMap : gmap string string) (rankMap : gmap string nat)
           (symbol : string) : RankValue :=
  let base := baseAssetOf baseMap symbol in
  let r := rankMap !! base in
  let r :=
    if negb (JS.truthy_nat r) && JS.startsWith base "1000"
    then rankMap !! JS.substring_from 4 base
    else r in
  if JS.truthy_nat r
  then match r with Some n => RankNumber n | None => RankNA end
  else RankNA.

End Rank.

(** ** Configuration, cache and the data client *)

Module Client.
Import Num.

(** The fields of the [CONFIG] object. *)
Record Config := {
  minVolume : Q;
  rsiLimit : nat;
  concurrency : nat;
  cacheTTL : Z;
  rankCacheTTL : Z
}.

Definition CONFIG : Config := {|
  minVolume := 0;
  rsiLimit := 35;
  concurrency := 40;
  cacheTTL := 60000;
  rankCacheTTL := 3600000
|}.

(** An entry of [CACHE.klines]. *)
Record KlineEntry := { data : list Q; timestamp : Z }.

(** What [CACHE.products.data] can hold: the empty object literal it is
    initialised with, or a product list stored by a successful fetch. *)
Inductive ProductsData :=
| EmptyObject
| ProductList (items : list Rank.Product).

Record ProductsEntry := { products_data : ProductsData; products_timestamp : Z }.

(** A response of the product endpoint: [fetch] or [response.json()]
    throws, or a JSON payload arrives with its [success] flag and its
    [data] field ([None]: missing or [null]). *)
Inductive ProductsResponse :=
| ProductsError
| ProductsJson (success : bool) (payload : option (list Rank.Product)).

(** The outside world: the readings of [Date.now()], numbered in the order
    they are taken, and the answers of the exchange at the time of each
    reading.  A kline answer is the list of closing prices of the candles
    ([parseFloat(candle[4])]), or [None] when the request or its parsing
    throws. *)
Record Exchange := {
  now_at : nat -> Z;
  klines_response : nat -> string -> string -> nat -> option (list Q);
  products_response : nat -> ProductsResponse
}.

(** The mutable state: the [CACHE] object and the number of clock readings
    taken so far, with two logs kept for the statements about request
    volume: the invocations of [fetchKlines] and the kline requests that
    went out to the exchange, both as (symbol, interval) in order. *)
Record World := {
  ticks : nat;
  cache_klines : gmap string KlineEntry;
  cache_products : ProductsEntry;
  calls : list (string * string);
  requests : list (string * string)
}.

(** The [CACHE] object as the script creates it. *)
Definition initial_world : World := {|
  ticks := 0;
  cache_klines := ∅;
  cache_products := {| products_data := EmptyObject; products_timestamp := 0 |};
  calls := [];
  requests := []
|}.

Definition Date_now (ex : Exchange) (w : World) : Z * World :=
  (now_at ex (ticks w),
   {| ticks := S (ticks w); cache_klines := cache_klines w;
      cache_products := cache_products w; calls := calls w;
      requests := requests w |}).

Definition set_klines (c : gmap string KlineEntry) (w : World) : World :=
  {| ticks := ticks w; cache_klines := c; cache_products := cache_products w;
     calls := calls w; requests := requests w |}.

Definition set_products (e : ProductsEntry) (w : World) : World :=
  {| ticks := ticks w; cache_klines := cache_klines w; cache_products := e;
     calls := calls w; requests := requests w |}.

Definition log_call (symbol interval : string) (w : World) : World :=
  {| ticks := ticks w; cache_klines := cache_klines w;
     cache_products := cache_products w;
     calls := calls w ++ [(symbol, interval)]; requests := requests w |}.

Definition log_request (symbol interval : string) (w : World) : World :=
  {| ticks := ticks w; cache_klines := cache_klines w;
     cache_products := cache_products w; calls := calls w;
     requests := requests w ++ [(symbol, interval)] |}.

(** [`${symbol}_${interval}`] *)
Definition cacheKey (symbol interval : string) : string :=
  (symbol ++ "_" ++ interval)%string.

(** [CACHE.products.data && CACHE.products.data.length > 0]: the empty
    object has no [length], and [undefined > 0] is false. *)
Definition has_products (d : ProductsData) : bool :=
  match d with
  | EmptyObject => false
  | ProductList items => (0 <? length items)%nat
  end.

(** Truthiness of [CACHE.products.data]: an object and an array are both
    truthy, the empty ones too. *)
Definition truthy_products (d : ProductsData) : bool :=
  match d with
  | EmptyObject => true
  | ProductList _ => true
  end.

Definition fetchProductData (cfg : Config) (ex : Exchange) (w : World)
  : ProductsData * World :=
  let '(now, w) := Date_now ex w in
  if has_products (products_data (cache_products w))
     && (now - products_timestamp (cache_products w) <? rankCacheTTL cfg)%Z
  then (products_data (cache_products w), w)
  else
    match products_response ex (ticks w) with
    | ProductsJson true (Some json_data) =>
        (ProductList json_data,
         set_products {| products_data := ProductList json_data;
                         products_timestamp := now |} w)
    | ProductsJson _ _ => (ProductList [], w)
    | ProductsError =>
        (if truthy_products (products_data (cache_products w))
         then products_data (cache_products w)
         else ProductList [],
         w)
    end.

Definition fetchKlines (cfg : Config) (ex : Exchange)
           (symbol interval : string) (limit : nat) (w : World)
  : list Q * World :=
  let w := log_call symbol interval w in
  let '(now, w) := Date_now ex w in
  let fresh :=
    match cache_klines w !! cacheKey symbol interval with
    | Some entry => (now - timestamp entry <? cacheTTL cfg)%Z
    | None => false
    end in
  if fresh
  then (match cache_klines w !! cacheKey symbol interval with
        | Some entry => data entry
        | None => []
        end, w)
  else
    let w := log_request symbol interval w in
    match klines_response ex (ticks w) symbol interval limit with
    | Some closePrices =>
        (closePrices,
         set_klines (<[cacheKey symbol interval :=
                        {| data := closePrices; timestamp := now |}]>
                       (cache_klines w)) w)
    | None => ([], w)
    end.

(** An exchange whose kline answers do not change over time: [answer]
    holds what it returns for a symbol, an interval and a lookback. *)
Definition steady_exchange (ex : Exchange)
           (answer : string -> string -> nat -> option (list Q)) : Prop :=
  forall n symbol interval limit,
    klines_response ex n symbol interval limit = answer symbol interval limit.

(** What [fetchKlines] makes of an answer: its closes, or the empty list
    when the request fails. *)
Definition closes_of (answer : string -> string -> nat -> option (list Q))
           (symbol interval : string) (limit : nat) : list Q :=
  default [] (answer symbol interval limit).

(** The kline cache holds nothing but answers of the exchange: an entry
    under the key of a 1h or 4h series holds the closes of that series at
    the configured lookback. *)
Definition cache_agrees (cfg : Config)
           (answer : string -> string -> nat -> option (list Q)) (w : World) : Prop :=
  forall symbol interval entry,
    interval = "1h" \/ interval = "4h" ->
    cache_klines w !! cacheKey symbol interval = Some entry ->
    data entry = closes_of answer symbol interval (rsiLimit cfg).

(** An entry of the 24h ticker map. *)
Record Ticker := { price : Q; volume : Q; priceChangePercent : Q }.

(** [stats[s]?.volume || 0] *)
Definition volume_of (stats : gmap string Ticker) (s : string) : Q :=
  match stats !! s with
  | Some t => or_default (volume t) 0
  | None => 0%Q
  end.

(** [stats[s]?.priceChangePercent || 0] *)
Definition change_of (stats : gmap string Ticker) (s : string) : Q :=
  match stats !! s with
  | Some t => or_default (priceChangePercent t) 0
  | None => 0%Q
  end.

End Client.

(** ** The scan: staged evaluation, worker pool, aggregation *)

Module Scanner.
Import Num.

(** A row of the result table. *)
Record ScanResult := {
  symbol : string;
  volume : Q;
  funding : Q;
  interval : Q;
  rank : Rank.RankValue;
  rsi1h : Q;
  rsi4h : Q
}.

(** What [updateData] holds once its metadata fetches have settled:
    [symbols] and [baseMap] of the exchange info, the 24h [stats], the
    funding maps and the product list. *)
Record Metadata := {
  symbols : list string;
  baseMap : gmap string string;
  stats : gmap string Client.Ticker;
  fundingMap : gmap string Q;
  fundingIntervals : gmap string Q;
  productList : Client.ProductsData
}.

(** An asynchronous computation that suspends at each
    [await fetchKlines(symbol, interval, limit)] and goes on with the
    closing prices it is resumed with. *)
Inductive Task (A : Type) :=
| Return (a : A)
| AwaitKlines (sym itv : string) (limit : nat) (k : list Q -> Task A).
Arguments Return {A} a.
Arguments AwaitKlines {A} sym itv limit k.

(** [fundingMap[symbol] || 0] and [fundingIntervals[symbol] || 8] *)
Definition lookup_or (m : gmap string Q) (sym : string) (d : Q) : Q :=
  match m !! sym with
  | Some v => or_default v d
  | None => d
  end.

Definition processSymbol (cfg : Client.Config) (meta : Metadata)
           (rankMap : gmap string nat) (sym : string)
  : Task (option ScanResult) :=
  AwaitKlines sym "1h" (Client.rsiLimit cfg) (fun k1h =>
    let rsi1h_value := RSI.calculateRSI k1h 6 in
    if Qlt_bool rsi1h_value 90 then Return None
    else
      AwaitKlines sym "4h" (Client.rsiLimit cfg) (fun k4h =>
        let rsi4h_value := RSI.calculateRSI k4h 6 in
        if Qlt_bool rsi4h_value 80 then Return None
        else
          Return (Some {|
            symbol := sym;
            volume := Client.volume_of (stats meta) sym;
            funding := lookup_or (fundingMap meta) sym 0;
            interval := lookup_or (fundingIntervals meta) sym 8;
            rank := Rank.resolveRank (baseMap meta) rankMap sym;
            rsi1h := rsi1h_value;
            rsi4h := rsi4h_value
          |}))).

(** ** Running a task against a data client

    A data client over a state [W] answers one [fetchKlines] call.  The
    script's own client is [Client.fetchKlines] over [Client.World]; a
    mocked client is any other function of this type. *)
Definition DataClient (W : Type) : Type :=
  string -> string -> nat -> W -> list Q * W.

Definition real_client (cfg : Client.Config) (ex : Client.Exchange)
  : DataClient Client.World :=
  Client.fetchKlines cfg ex.

(** A mocked client over a fixed dataset: the same closes for the same
    arguments, and no state of its own. *)
Definition mock_client {W : Type} (dataset : string -> string -> nat -> list Q)
  : DataClient W :=
  fun sym itv limit w => (dataset sym itv limit, w).

(** The calls the staged evaluation makes: the 1h and the 4h series of a
    symbol, at the configured lookback. *)
Definition stage_call (cfg : Client.Config) (sym itv : string) (limit : nat) : Prop :=
  (itv = "1h" \/ itv = "4h") /\ limit = Client.rsiLimit cfg.

(** A client is deterministic over a dataset, for the calls of [asked],
    when every such call returns what the dataset holds for its arguments,
    in every state the client can be in (the states of [valid], which
    these calls never leave). *)
Record Deterministic {W : Type} (asked : string -> string -> nat -> Prop)
       (client : DataClient W)
       (dataset : string -> string -> nat -> list Q) (valid : W -> Prop) : Prop := {
  deterministic_value :
    forall sym itv limit w,
      asked sym itv limit -> valid w ->
      fst (client sym itv limit w) = dataset sym itv limit;
  deterministic_valid :
    forall sym itv limit w,
      asked sym itv limit -> valid w ->
      valid (snd (client sym itv limit w))
}.

(** A task that makes no call outside [asked], whatever it is resumed
    with. *)
Fixpoint asks_only {A : Type} (asked : string -> string -> nat -> Prop)
         (t : Task A) : Prop :=
  match t with
  | Return _ => True
  | AwaitKlines sym itv limit k =>
      asked sym itv limit /\ forall closes, asks_only asked (k closes)
  end.

(** One task run from start to end with nothing else in between. *)
Fixpoint run_task {W A : Type} (client : DataClient W) (t : Task A) (w : W) : A * W :=
  match t with
  | Return a => (a, w)
  | AwaitKlines sym itv limit k =>
      let '(closes, w') := client sym itv limit w in
      run_task client (k closes) w'
  end.

(** What a task returns over a fixed dataset. *)
Definition task_value {A : Type} (dataset : string -> string -> nat -> list Q)
           (t : Task A) : A :=
  fst (run_task (mock_client dataset) t tt).

(** The two stage tests on a dataset: the 1h reading is at least 90 and
    the 4h reading is at least 80, both at period 6 and at the lookback
    [limit]. *)
Definition qualifies (dataset : string -> string -> nat -> list Q) (limit : nat)
           (sym : string) : bool :=
  Qle_bool 90 (RSI.calculateRSI (dataset sym "1h" limit) 6)
  && Qle_bool 80 (RSI.calculateRSI (dataset sym "4h" limit) 6).

(** ** The worker pool *)

(** Where a worker stands: at the loop test [while (index < total)],
    inside [await processSymbol(symbol)] (suspended at an await, or about
    to return), or past the loop. *)
Inductive WorkerState :=
| AtLoopTest
| InProcessSymbol (t : Task (option ScanResult))
| Terminated.

(** The variables the workers share: the state of the data client, the
    cursor [index], the counter [completed], the array [results], and the
    workers themselves; [assigned] records the values [currentIndex] took,
    in order. *)
Record Pool (W : Type) := {
  world : W;
  index : nat;
  completed : nat;
  results : list ScanResult;
  workers : list WorkerState;
  assigned : list nat
}.
Arguments world {W} _.
Arguments index {W} _.
Arguments completed {W} _.
Arguments results {W} _.
Arguments workers {W} _.
Arguments assigned {W} _.

Section Workers.
Context {W : Type}.
Variable client : DataClient W.
Variable process : string -> Task (option ScanResult).
Variable TARGET_SYMBOLS : list string.

Definition total : nat := length TARGET_SYMBOLS.

(** One uninterrupted stretch of worker [i]: from the loop test to the
    first await of [processSymbol] (taking [currentIndex = index++] on
    the way) or out of the loop; from an await to the next one; from
    the return of [processSymbol] through [results.push] and
    [completed++] back to the loop test.  [None]: there is no such
    worker, or it has terminated.  The [catch] around [processSymbol] is
    never entered: [fetchKlines] catches its own failures and answers
    with the empty list.  The progress text is left out. *)
Definition worker (i : nat) (p : Pool W) : option (Pool W) :=
  match workers p !! i with
  | None => None
  | Some Terminated => None
  | Some AtLoopTest =>
      if (index p <? total)%nat then
        let currentIndex := index p in
        match TARGET_SYMBOLS !! currentIndex with
        | Some sym =>
            Some {| world := world p;
                    index := S (index p);
                    completed := completed p;
                    results := results p;
                    workers := <[i := InProcessSymbol (process sym)]> (workers p);
                    assigned := assigned p ++ [currentIndex] |}
        | None => None
        end
      else
        Some {| world := world p; index := index p;
                completed := completed p; results := results p;
                workers := <[i := Terminated]> (workers p);
                assigned := assigned p |}
  | Some (InProcessSymbol (AwaitKlines sym itv limit k)) =>
      let '(closes, w') := client sym itv limit (world p) in
      Some {| world := w'; index := index p;
              completed := completed p; results := results p;
              workers := <[i := InProcessSymbol (k closes)]> (workers p);
              assigned := assigned p |}
  | Some (InProcessSymbol (Return result)) =>
      Some {| world := world p; index := index p;
              completed := S (completed p);
              results := match result with
                         | Some r => results p ++ [r]
                         | None => results p
                         end;
              workers := <[i := AtLoopTest]> (workers p);
              assigned := assigned p |}
  end.

(** The event loop resumes the workers in some order: a schedule names
    the worker of each stretch.  Naming a worker that cannot run leaves
    the pool as it is. *)
Fixpoint run_schedule (schedule : list nat) (p : Pool W) : Pool W :=
  match schedule with
  | [] => p
  | i :: rest => run_schedule rest (default p (worker i p))
  end.

Definition is_terminated (s : WorkerState) : bool :=
  match s with
  | Terminated => true
  | _ => false
  end.

(** [await Promise.all(workers)] has settled. *)
Definition all_settled (p : Pool W) : bool := forallb is_terminated (workers p).

(** [Array(Math.min(CONCURRENCY, total)).fill(null).map(() => worker())]
    with [index = 0], [completed = 0] and [results = []]. *)
Definition start_workers (CONCURRENCY : nat) (w : W) : Pool W :=
  {| world := w; index := 0; completed := 0; results := [];
     workers := replicate (Nat.min CONCURRENCY total) AtLoopTest;
     assigned := [] |}.
End Workers.

(** ** What the pool keeps true over a fixed dataset *)

Section Accounting.
Context {W : Type}.
Variable asked : string -> string -> nat -> Prop.
Variable dataset : string -> string -> nat -> list Q.
Variable valid : W -> Prop.
Variable process : string -> Task (option ScanResult).
Variable TARGET_SYMBOLS : list string.

(** The calls a worker can still make are calls of [asked]. *)
Definition calls_within (s : WorkerState) : Prop :=
  match s with
  | InProcessSymbol t => asks_only asked t
  | _ => True
  end.

(** The result a worker has still to deliver: the value of the task it
    is suspended in. *)
Definition in_flight (s : WorkerState) : list (option ScanResult) :=
  match s with
  | InProcessSymbol t => [task_value dataset t]
  | _ => []
  end.

Definition all_in_flight (ws : list WorkerState) : list (option ScanResult) :=
  concat (map in_flight ws).

(** The matches among a list of symbols, in the order of the list. *)
Definition outcomes (syms : list string) : list ScanResult :=
  omap (fun sym => task_value dataset (process sym)) syms.

(** The cursor has handed out exactly the indices below it, once each
    and in order; the results pushed so far together with those still
    to be delivered are the matches among the symbols below the cursor;
    every symbol handed out is completed or in flight; a worker leaves
    the loop only once the cursor has reached the end; and the data
    client is in a valid state and will only get calls of [asked]. *)
Record pool_invariant (p : Pool W) : Prop := {
  inv_valid : valid (world p);
  inv_calls : Forall calls_within (workers p);
  inv_index : (index p <= total TARGET_SYMBOLS)%nat;
  inv_assigned : assigned p = seq 0 (index p);
  inv_results :
    Permutation (results p ++ omap id (all_in_flight (workers p)))
                (outcomes (take (index p) TARGET_SYMBOLS));
  inv_completed :
    (completed p + length (all_in_flight (workers p)) = index p)%nat;
  inv_exit :
    Forall (fun s => s <> Terminated) (workers p)
    \/ (total TARGET_SYMBOLS <= index p)%nat
}.
End Accounting.

(** ** [updateData], from the settled metadata on *)

(** [symbols.filter(s => (stats[s]?.volume || 0) >= minVol)], sorted by
    24h price change, largest first. *)
Definition highVolumeSymbols (cfg : Client.Config) (meta : Metadata) : list string :=
  JS.sort
    (fun a b => (Client.change_of (stats meta) b - Client.change_of (stats meta) a)%Q)
    (List.filter
       (fun s => Qle_bool (Client.minVolume cfg) (Client.volume_of (stats meta) s))
       (symbols meta)).

(** [(a, b) => b.volume - a.volume] *)
Definition by_volume_desc (a b : ScanResult) : Q := (volume b - volume a)%Q.

(** How a cycle stands after a schedule: the table was rendered with
    [matches]; the main [catch] was reached; or the workers have not all
    settled yet. *)
Inductive Outcome :=
| Rendered (matches : list ScanResult)
| MainLoopError
| StillScanning.

Definition updateData {W : Type} (cfg : Client.Config) (client : DataClient W)
           (meta : Metadata) (w : W) (schedule : list nat) : Outcome :=
  match productList meta with
  | Client.EmptyObject => MainLoopError
  | Client.ProductList items =>
      let rankMap := Rank.buildRankMap items in
      let TARGET_SYMBOLS := highVolumeSymbols cfg meta in
      let process := processSymbol cfg meta rankMap in
      let pool :=
        run_schedule client process TARGET_SYMBOLS schedule
          (start_workers TARGET_SYMBOLS (Client.concurrency cfg) w) in
      if all_settled pool
      then Rendered (JS.sort by_volume_desc (results pool))
      else StillScanning
  end.

End Scanner.

(** ** A scenario: three symbols *)

Module Scenario.
Import Scanner.

Definition rising : list Q := [1; 2; 3; 4; 5; 6; 7; 8]%Q.
Definition falling : list Q := [8; 7; 6; 5; 4; 3; 2; 1]%Q.

(** A series that reads 7400/109, about 67.9, at period 6. *)
Definition mixed : list Q := [10; 9; 11; 10; 12; 11; 13; 12; 14]%Q.

(** [mixed] on the 1h interval and [rising] on the 4h interval, for every
    symbol; and the other way round. *)
Definition weak_1h (sym itv : string) (limit : nat) : list Q :=
  if String.eqb itv "1h" then mixed else rising.

Definition weak_4h (sym itv : string) (limit : nat) : list Q :=
  if String.eqb itv "1h" then rising else mixed.

(** [AUSDT] rises on both intervals, [BUSDT] falls on both, [CUSDT] rises
    on the 1h interval and falls on the 4h interval. *)
Definition dataset (sym itv : string) (limit : nat) : list Q :=
  if String.eqb sym "AUSDT" then rising
  else if String.eqb sym "BUSDT" then falling
  else if String.eqb itv "1h" then rising
  else falling.

Definition ticker (v : Q) : Client.Ticker :=
  {| Client.price := 1; Client.volume := v; Client.priceChangePercent := 0 |}.

Definition meta : Metadata := {|
  symbols := ["AUSDT"; "BUSDT"; "CUSDT"];
  baseMap := ∅;
  stats := {[ "AUSDT" := ticker 5000000 ]};
  fundingMap := ∅;
  fundingIntervals := ∅;
  productList := Client.ProductList []
|}.

(** A client with no state of its own. *)
Definition client : DataClient unit := mock_client dataset.

(** An exchange that answers with the dataset at all times, at clock
    reading 1000. *)
Definition exchange : Client.Exchange := {|
  Client.now_at := fun _ => 1000%Z;
  Client.klines_response := fun _ sym itv limit => Some (dataset sym itv limit);
  Client.products_response := fun _ => Client.ProductsJson true (Some [])
|}.

Definition always (w : unit) : Prop := True.

(** The answers of [exchange]. *)
Definition answer (sym itv : string) (limit : nat) : option (list Q) :=
  Some (dataset sym itv limit).

(** Two symbols that rise on both intervals, with 24h volumes of
    5,000,000 and 50,000,000. *)
Definition rising_exchange : Client.Exchange := {|
  Client.now_at := fun _ => 1000%Z;
  Client.klines_response := fun _ _ _ _ => Some rising;
  Client.products_response := fun _ => Client.ProductsJson true (Some [])
|}.

Definition two_risers : Metadata := {|
  symbols := ["LOWUSDT"; "HIGHUSDT"];
  baseMap := ∅;
  stats := {[ "LOWUSDT" := ticker 5000000; "HIGHUSDT" := ticker 50000000 ]};
  fundingMap := ∅;
  fundingIntervals := ∅;
  productList := Client.ProductList []
|}.

(** A product feed with two entries for [BTC], the cheaper one first, and
    one entry for [ETH] between the two market caps. *)
Definition feed : list Rank.Product := [
  {| Rank.item_q := "USDT"; Rank.item_b := "BTC";
     Rank.item_c := Some 10; Rank.item_cs := Some 5 |};
  {| Rank.item_q := "USDT"; Rank.item_b := "ETH";
     Rank.item_c := Some 20; Rank.item_cs := Some 5 |};
  {| Rank.item_q := "USDT"; Rank.item_b := "BTC";
     Rank.item_c := Some 40; Rank.item_cs := Some 5 |};
  {| Rank.item_q := "BUSD"; Rank.item_b := "SOL";
     Rank.item_c := Some 90; Rank.item_cs := Some 5 |}
]%Q.

(** Every worker resumed in turn, five times over. *)
Definition round_robin : list nat :=
  [0; 1; 2; 0; 1; 2; 0; 1; 2; 0; 1; 2; 0; 1; 2]%nat.
End Scenario.

(** ** The metadata accessors *)

Module Feeds.

(** An entry of [data.symbols] in the exchange-info payload. *)
Record SymbolInfo := {
  info_symbol : string;
  baseAsset : string;
  quoteAsset : string;
  status : string
}.

(** What [fetchExchangeInfo] returns. *)
Record ExchangeData := { symbols : list string; baseMap : gmap string string }.

(** [s => s.quoteAsset === 'USDT' && s.status === 'TRADING'] *)
Definition is_active (s : SymbolInfo) : bool :=
  String.eqb (quoteAsset s) "USDT" && String.eqb (status s) "TRADING".

(** [data.reduce((acc, item) => { acc[key(item)] = value(item); return acc; }, {})] *)
Definition reduce_to_map {A V : Type} (key : A -> string) (value : A -> V)
           (data : list A) : gmap string V :=
  fold_left (fun acc item => <[key item := value item]> acc) data ∅.

(** The payload of each accessor is [None] when [fetch] or
    [response.json()] throws; the accessor then answers with its empty
    value. *)
Definition fetchExchangeInfo (response : option (list SymbolInfo)) : ExchangeData :=
  match response with
  | Some data_symbols =>
      let activeSymbols := List.filter is_active data_symbols in
      {| symbols := map info_symbol activeSymbols;
         baseMap := reduce_to_map info_symbol baseAsset activeSymbols |}
  | None => {| symbols := []; baseMap := ∅ |}
  end.

(** An entry of the 24h ticker payload, its three decimal strings parsed. *)
Record TickerItem := {
  ticker_symbol : string;
  lastPrice : Q;
  quoteVolume : Q;
  priceChangePercent : Q
}.

Definition fetch24hTicker (response : option (list TickerItem))
  : gmap string Client.Ticker :=
  match response with
  | Some data =>
      reduce_to_map ticker_symbol
        (fun item => {| Client.price := lastPrice item;
                        Client.volume := quoteVolume item;
                        Client.priceChangePercent := priceChangePercent item |})
        data
  | None => ∅
  end.

(** An entry of the premium-index payload. *)
Record PremiumIndex := { premium_symbol : string; lastFundingRate : Q }.

Definition fetchFundingRates (response : option (list PremiumIndex)) : gmap string Q :=
  match response with
  | Some data => reduce_to_map premium_symbol lastFundingRate data
  | None => ∅
  end.

(** An entry of the funding-info payload. *)
Record FundingInfo := { funding_symbol : string; fundingIntervalHours : Q }.

Definition fetchFundingIntervals (response : option (list FundingInfo)) : gmap string Q :=
  match response with
  | Some data => reduce_to_map funding_symbol fundingIntervalHours data
  | None => ∅
  end.

(** [noCache()]: one reading of the clock, for the query string. *)
Definition noCache (ex : Client.Exchange) (w : Client.World) : Client.World :=
  snd (Client.Date_now ex w).

End Feeds.

(** ** A cycle from its start *)

Module Cycle.
Import Scanner.

(** The payloads the four metadata endpoints answer a cycle with. *)
Record Responses := {
  exchangeInfo : option (list Feeds.SymbolInfo);
  ticker24hr : option (list Feeds.TickerItem);
  premiumIndex : option (list Feeds.PremiumIndex);
  fundingInfo : option (list Feeds.FundingInfo)
}.

(** [await Promise.all([fetchExchangeInfo(), fetch24hTicker(),
    fetchFundingRates(), fetchFundingIntervals(), fetchProductData()])]:
    the five accessors start in this order, each running up to its
    request, so the clock is read four times for the query strings
    before [fetchProductData] reads it. *)
Definition gatherMetadata (cfg : Client.Config) (ex : Client.Exchange)
           (responses : Responses) (w : Client.World) : Metadata * Client.World :=
  let exchangeData := Feeds.fetchExchangeInfo (exchangeInfo responses) in
  let w := Feeds.noCache ex w in
  let w := Feeds.noCache ex w in
  let w := Feeds.noCache ex w in
  let w := Feeds.noCache ex w in
  let '(products, w) := Client.fetchProductData cfg ex w in
  ({| symbols := Feeds.symbols exchangeData;
      baseMap := Feeds.baseMap exchangeData;
      stats := Feeds.fetch24hTicker (ticker24hr responses);
      fundingMap := Feeds.fetchFundingRates (premiumIndex responses);
      fundingIntervals := Feeds.fetchFundingIntervals (fundingInfo responses);
      productList := products |}, w).

(** [updateData] from the metadata fetches to the rendered list, over the
    script's own kline accessor. *)
Definition updateData (cfg : Client.Config) (ex : Client.Exchange)
           (responses : Responses) (w : Client.World) (schedule : list nat) : Outcome :=
  let '(meta, w) := gatherMetadata cfg ex responses w in
  Scanner.updateData cfg (real_client cfg ex) meta w schedule.

End Cycle.

(** ** The table *)

Module Render.
Import Num Scanner.
Local Open Scope Q_scope.

(** A row of the table: the classes and texts [renderTable] computes for
    one item.  The numbers of the funding and RSI cells are kept as
    numbers; their decimal formatting ([toFixed]) is left out. *)
Record Row := {
  symbol_cell : string;
  rank_cell : string;
  funding_class : string;
  funding_sign : string;
  annualizedRate : Q;
  interval_tag : Q;
  rsi1h_class : string;
  rsi1h_cell : Q;
  rsi4h_class : string;
  rsi4h_cell : Q;
  webLink : string
}.

(** [item.rank !== 'N/A' ? `#${item.rank}` : '-'] *)
Definition rankDisplay (r : Rank.RankValue) : string :=
  match r with
  | Rank.RankNumber n => ("#" ++ pretty n)%string
  | Rank.RankNA => "-"%string
  end.

(** The body of [items.forEach(item => ...)]. *)
Definition row (item : ScanResult) : Row :=
  let dailyIntervals := 24 / interval item in
  let annualized := funding item * dailyIntervals * 365 * 100 in
  {| symbol_cell := symbol item;
     rank_cell := rankDisplay (rank item);
     funding_class :=
       if Qlt_bool 0 (funding item) then "funding-positive" else "funding-negative";
     funding_sign := if Qlt_bool 0 annualized then "+" else "";
     annualizedRate := annualized;
     interval_tag := interval item;
     rsi1h_class := if Qle_bool 90 (rsi1h item) then "rsi-extreme" else "rsi-high";
     rsi1h_cell := rsi1h item;
     rsi4h_class := if Qle_bool 80 (rsi4h item) then "rsi-extreme" else "rsi-high";
     rsi4h_cell := rsi4h item;
     webLink := ("https://www.binance.com/en/futures/" ++ symbol item)%string |}.

(** The two elements [renderTable] writes to: whether the empty-state
    element carries the class [hidden], and the rows of the table body. *)
Record Table := { emptyState_hidden : bool; tableBody : list Row }.

Definition renderTable (items : list ScanResult) (t : Table) : Table :=
  if (length items =? 0)%nat
  then {| emptyState_hidden := false; tableBody := tableBody t |}
  else {| emptyState_hidden := true; tableBody := tableBody t ++ map row items |}.

End Render.

(** ** Vocabulary for the statements about calls and results *)

Module Trace.
Import Scanner.

(** The calls a task makes, in order, when it is resumed with the closes
    of a dataset. *)
Fixpoint task_calls {A : Type} (dataset : string -> string -> nat -> list Q)
         (t : Task A) : list (string * string) :=
  match t with
  | Return _ => []
  | AwaitKlines sym itv limit k => (sym, itv) :: task_calls dataset (k (dataset sym itv limit))
  end.

(** The calls a worker has still to make for the symbol it is at. *)
Definition pending_calls (dataset : string -> string -> nat -> list Q)
           (s : WorkerState) : list (string * string) :=
  match s with
  | InProcessSymbol t => task_calls dataset t
  | _ => []
  end.

Definition all_pending (dataset : string -> string -> nat -> list Q)
           (ws : list WorkerState) : list (string * string) :=
  concat (map (pending_calls dataset) ws).

(** The calls the evaluations of a list of symbols make over a dataset. *)
Definition expected_calls (dataset : string -> string -> nat -> list Q)
           (process : string -> Task (option ScanResult)) (syms : list string)
  : list (string * string) :=
  concat (map (fun sym => task_calls dataset (process sym)) syms).

(** The calls of the staged evaluation of one symbol over a dataset: the
    1h series, and the 4h series when the 1h reading is at least 90. *)
Definition stage_calls (dataset : string -> string -> nat -> list Q) (limit : nat)
           (sym : string) : list (string * string) :=
  (sym, "1h"%string)
  :: (if Qle_bool 90 (RSI.calculateRSI (dataset sym "1h"%string limit) 6)
      then [(sym, "4h"%string)] else []).

(** A client that keeps a log of the calls it gets. *)
Definition logs_calls {W : Type} (client : DataClient W)
           (log : W -> list (string * string)) : Prop :=
  forall sym itv limit w, log (snd (client sym itv limit w)) = log w ++ [(sym, itv)].

(** Whatever a task is resumed with, a result it returns satisfies [P]. *)
Fixpoint returns_only {A : Type} (P : A -> Prop) (t : Task (option A)) : Prop :=
  match t with
  | Return (Some r) => P r
  | Return None => True
  | AwaitKlines _ _ _ k => forall closes, returns_only P (k closes)
  end.

Definition worker_returns_only (P : ScanResult -> Prop) (s : WorkerState) : Prop :=
  match s with
  | InProcessSymbol t => returns_only P t
  | _ => True
  end.

(** The workers that are inside [processSymbol]. *)
Definition is_running (s : WorkerState) : bool :=
  match s with
  | InProcessSymbol _ => true
  | _ => false
  end.

Definition running (ws : list WorkerState) : nat := length (List.filter is_running ws).

End Trace.

Module Freshness.
Import Client.

(** At clock reading [now] the kline cache has no entry for the series
    that is younger than [cacheTTL]: [fetchKlines] has to ask the
    exchange. *)
Definition kline_miss (cfg : Config) (now : Z) (w : World)
           (symbol interval : string) : Prop :=
  forall entry,
    cache_klines w !! cacheKey symbol interval = Some entry ->
    (cacheTTL cfg <= now - timestamp entry)%Z.

(** At clock reading [now] the product cache cannot be used: it holds no
    non-empty list, or its list is not younger than [rankCacheTTL]. *)
Definition products_miss (cfg : Config) (now : Z) (w : World) : Prop :=
  has_products (products_data (cache_products w))
  && (now - products_timestamp (cache_products w) <? rankCacheTTL cfg)%Z = false.

(** The kline cache is warm for a list of symbols: it holds the 1h and
    the 4h series of each of them, and each entry stays younger than
    [cacheTTL] at every clock reading still to come. *)
Definition warm (cfg : Config) (ex : Exchange) (TARGET_SYMBOLS : list string)
           (w : World) : Prop :=
  forall sym itv,
    In sym TARGET_SYMBOLS -> itv = "1h"%string \/ itv = "4h"%string ->
    exists entry,
      cache_klines w !! cacheKey sym itv = Some entry
      /\ forall n, (ticks w <= n)%nat ->
                   (now_at ex n - timestamp entry < cacheTTL cfg)%Z.

End Freshness.

Module Fields.
Import Scanner.

(** The fields of a match as [processSymbol] fills them in: those looked
    up for the symbol of the match, and two readings that passed the
    stage tests. *)
Definition filled_in (meta : Metadata) (rankMap : gmap string nat) (r : ScanResult)
  : Prop :=
  volume r = Client.volume_of (stats meta) (symbol r)
  /\ funding r = lookup_or (fundingMap meta) (symbol r) 0
  /\ interval r = lookup_or (fundingIntervals meta) (symbol r) 8
  /\ rank r = Rank.resolveRank (baseMap meta) rankMap (symbol r)
  /\ (90 <= rsi1h r <= 100)%Q
  /\ (80 <= rsi4h r <= 100)%Q.

End Fields.

(** ** The batch variant of the scan

    The variant of the script that scans the candidates in batches
    instead of through a worker pool: the batch size is a field of its
    [CONFIG], its rows carry a price and no rank or funding interval,
    and its kline accessor, its indicator and its volume filter are the
    ones above. *)

Module Batches.
Import Num Scanner.

(** A row of the result table of this variant. *)
Record Row := {
  symbol : string;
  price : Q;
  volume : Q;
  funding : Q;
  rsi1h : Q;
  rsi4h : Q
}.

(** [stats[symbol]?.price || 0] *)
Definition price_of (stats : gmap string Client.Ticker) (s : string) : Q :=
  match stats !! s with
  | Some t => or_default (Client.price t) 0
  | None => 0%Q
  end.

(** The asynchronous function mapped over a batch. *)
Definition processSymbol (cfg : Client.Config) (stats : gmap string Client.Ticker)
           (fundingMap : gmap string Q) (sym : string) : Task (option Row) :=
  AwaitKlines sym "1h" (Client.rsiLimit cfg) (fun k1h =>
    let rsi1h_value := RSI.calculateRSI k1h 6 in
    if Qlt_bool rsi1h_value 90 then Return None
    else
      AwaitKlines sym "4h" (Client.rsiLimit cfg) (fun k4h =>
        let rsi4h_value := RSI.calculateRSI k4h 6 in
        if Qlt_bool rsi4h_value 80 then Return None
        else
          Return (Some {|
            symbol := sym;
            price := price_of stats sym;
            volume := Client.volume_of stats sym;
            funding := lookup_or fundingMap sym 0;
            rsi1h := rsi1h_value;
            rsi4h := rsi4h_value
          |}))).

(** [l.slice(from, to)] for [from <= to]. *)
Definition slice {A : Type} (from to : nat) (l : list A) : list A :=
  take (to - from) (drop from l).

(** Where the loop stands: at its test [i < TARGET_SYMBOLS.length]; inside
    [await Promise.all(promises)] with the promises of the batch, each
    suspended at an await or returned; or past the loop. *)
Inductive LoopState :=
| AtLoopTest
| InBatch (promises : list (Task (option Row)))
| Done.

(** The state of the scan: the state of the data client, the loop
    variable [i], the array [results], and where the loop stands. *)
Record Loop (W : Type) := {
  world : W;
  i : nat;
  results : list Row;
  state : LoopState
}.
Arguments world {W} _.
Arguments i {W} _.
Arguments results {W} _.
Arguments state {W} _.

Definition settled (t : Task (option Row)) : bool :=
  match t with
  | Return _ => true
  | AwaitKlines _ _ _ _ => false
  end.

(** What a promise of the batch resolved to. *)
Definition resolved (t : Task (option Row)) : option Row :=
  match t with
  | Return r => r
  | AwaitKlines _ _ _ _ => None
  end.

Section Loop.
Context {W : Type}.
Variable client : DataClient W.
Variable process : string -> Task (option Row).
Variable TARGET_SYMBOLS : list string.
Variable BATCH_SIZE : nat.

(** One uninterrupted stretch of the scan.  At the loop test: into the
    batch [TARGET_SYMBOLS.slice(i, i + BATCH_SIZE)], or out of the loop.
    In a batch whose promises have all resolved: through
    [batchResults.filter(r => r !== null)], [results.push] and the delay
    to [i += BATCH_SIZE] and the loop test.  Otherwise promise [j] of
    the batch goes from one await to the next or to its return.
    [None]: the loop has ended, or promise [j] cannot run. *)
Definition stretch (j : nat) (p : Loop W) : option (Loop W) :=
  match state p with
  | Done => None
  | AtLoopTest =>
      if (i p <? length TARGET_SYMBOLS)%nat then
        let batch := slice (i p) (i p + BATCH_SIZE) TARGET_SYMBOLS in
        Some {| world := world p; i := i p; results := results p;
                state := InBatch (map process batch) |}
      else
        Some {| world := world p; i := i p; results := results p; state := Done |}
  | InBatch promises =>
      if forallb settled promises then
        Some {| world := world p;
                i := i p + BATCH_SIZE;
                results := results p ++ omap resolved promises;
                state := AtLoopTest |}
      else
        match promises !! j with
        | Some (AwaitKlines sym itv limit k) =>
            let '(closes, w') := client sym itv limit (world p) in
            Some {| world := w'; i := i p; results := results p;
                    state := InBatch (<[j := k closes]> promises) |}
        | _ => None
        end
  end.

(** The event loop resumes the scan stretch by stretch; inside a batch a
    schedule names the promise of each stretch. *)
Fixpoint run_schedule (schedule : list nat) (p : Loop W) : Loop W :=
  match schedule with
  | [] => p
  | j :: rest => run_schedule rest (default p (stretch j p))
  end.

(** [for (let i = 0; ...)] with [results = []]. *)
Definition start (w : W) : Loop W :=
  {| world := w; i := 0; results := []; state := AtLoopTest |}.

Definition ended (p : Loop W) : bool :=
  match state p with
  | Done => true
  | _ => false
  end.
End Loop.

(** What the loop keeps true over a deterministic data client: [results]
    holds the matches among the candidates below [i], in candidate
    order, and the promises of a batch stand for the candidates from [i]
    on. *)
Section Accounting.
Context {W : Type}.
Variable asked : string -> string -> nat -> Prop.
Variable dataset : string -> string -> nat -> list Q.
Variable valid : W -> Prop.
Variable process : string -> Task (option Row).
Variable TARGET_SYMBOLS : list string.
Variable BATCH_SIZE : nat.

Definition outcomes (syms : list string) : list Row :=
  omap (fun sym => task_value dataset (process sym)) syms.

Definition loop_invariant (p : Loop W) : Prop :=
  valid (world p)
  /\ results p = outcomes (take (i p) TARGET_SYMBOLS)
  /\ match state p with
     | AtLoopTest => True
     | InBatch promises =>
         Forall (asks_only asked) promises
         /\ map (task_value dataset) promises
            = map (fun sym => task_value dataset (process sym))
                  (slice (i p) (i p + BATCH_SIZE) TARGET_SYMBOLS)
     | Done => (length TARGET_SYMBOLS <= i p)%nat
     end.
End Accounting.

(** [(a, b) => b.volume - a.volume] *)
Definition by_volume_desc (a b : Row) : Q := (volume b - volume a)%Q.

(** How a cycle stands after a schedule. *)
Inductive Outcome :=
| Rendered (matches : list Row)
| StillScanning.

(** [symbols.filter(s => (stats[s]?.volume || 0) >= minVol)], sorted by
    24h price change, largest first. *)
Definition highVolumeSymbols (cfg : Client.Config) (symbols : list string)
           (stats : gmap string Client.Ticker) : list string :=
  JS.sort
    (fun a b => (Client.change_of stats b - Client.change_of stats a)%Q)
    (List.filter
       (fun s => Qle_bool (Client.minVolume cfg) (Client.volume_of stats s))
       symbols).

(** [updateData] of this variant, from the settled metadata on. *)
Definition updateData {W : Type} (cfg : Client.Config) (BATCH_SIZE : nat)
           (client : DataClient W) (symbols : list string)
           (stats : gmap string Client.Ticker) (fundingMap : gmap string Q)
           (w : W) (schedule : list nat) : Outcome :=
  let TARGET_SYMBOLS := highVolumeSymbols cfg symbols stats in
  let loop :=
    run_schedule client (processSymbol cfg stats fundingMap) TARGET_SYMBOLS
                 BATCH_SIZE schedule (start w) in
  if ended loop
  then Rendered (JS.sort by_volume_desc (results loop))
  else StillScanning.

End Batches.

(** * Properties *)

(** ** Numbers *)

Section NumFacts.
Import Num.
Local Open Scope Q_scope.

Lemma Qlt_bool_iff x y : Qlt_bool x y = true <-> x < y.
Proof.
  unfold Qlt_bool. rewrite negb_true_iff. split.
  - intros H. apply Qnot_le_lt. intros Hle.
    apply Qle_bool_iff in Hle. congruence.
  - intros H. destruct (Qle_bool y x) eqn:E; [|reflexivity].
    apply Qle_bool_iff in E. exfalso. exact (Qlt_not_le _ _ H E).
Qed.

Lemma Qlt_bool_false_iff x y : Qlt_bool x y = false <-> y <= x.
Proof. unfold Qlt_bool. rewrite negb_false_iff. apply Qle_bool_iff. Qed.

Lemma of_nat_pos n : (1 <= n)%nat -> 0 < of_nat n.
Proof. intros H. unfold of_nat, Qlt. simpl. lia. Qed.

Lemma of_nat_pred_nonneg n : (1 <= n)%nat -> 0 <= of_nat n - 1.
Proof. intros H. unfold of_nat, Qle, Qminus, Qplus, Qopp. simpl. lia. Qed.

Lemma Qdiv_nonneg a b : 0 <= a -> 0 < b -> 0 <= a / b.
Proof.
  intros Ha Hb. apply Qle_shift_div_l; [exact Hb|]. lra.
Qed.

Lemma or_default_nonneg v : 0 <= v -> 0 <= or_default v 0.
Proof.
  intros H. unfold or_default. destruct (Qeq_bool v 0); [lra | exact H].
Qed.
End NumFacts.

(** ** The indicator *)

Section RSIFacts.
Import Num RSI.
Local Open Scope Q_scope.

(** The loops stay inside the array: the guard on the length puts every
    index they read below [closes.length]. *)
Lemma seed_indices_in_range (closes : list Q) period i :
  (period + 1 <= length closes)%nat ->
  In i (seed_indices period) ->
  (1 <= i < length closes)%nat.
Proof.
  intros Hlen Hi. apply in_seq in Hi. lia.
Qed.

Lemma smooth_indices_in_range (closes : list Q) period i :
  In i (smooth_indices closes period) ->
  (1 <= i < length closes)%nat.
Proof.
  intros Hi. apply in_seq in Hi. lia.
Qed.

(** In a non-decreasing sequence every difference the loops take is
    non-negative. *)
Lemma Sorted_adjacent (closes : list Q) i :
  Sorted Qle closes ->
  (S i < length closes)%nat ->
  at_index closes i <= at_index closes (S i).
Proof.
  intros Hs. revert i. induction Hs as [|a l Hs IH Hhd]; intros i Hi.
  - simpl in Hi. lia.
  - destruct i as [|i].
    + destruct Hhd as [|b l' Hab]; [simpl in Hi; lia|]. exact Hab.
    + unfold at_index in *. simpl. apply IH. simpl in Hi. lia.
Qed.

Lemma Sorted_diff_nonneg (closes : list Q) i :
  Sorted Qle closes ->
  (1 <= i < length closes)%nat ->
  0 <= at_index closes i - at_index closes (i - 1).
Proof.
  intros Hs Hi. destruct i as [|i]; [lia|].
  replace (S i - 1)%nat with i by lia.
  pose proof (Sorted_adjacent closes i Hs ltac:(lia)). lra.
Qed.

(** With no negative difference the first loop never touches [losses]. *)
Lemma seed_losses_untouched closes idxs acc :
  (forall i, In i idxs -> 0 <= at_index closes i - at_index closes (i - 1)) ->
  snd (fold_left (seed_step closes) idxs acc) = snd acc.
Proof.
  revert acc. induction idxs as [|i idxs IH]; intros acc H; [reflexivity|].
  simpl. rewrite IH by (intros j Hj; apply H; now right).
  unfold seed_step.
  assert (Hd : Qle_bool 0 (at_index closes i - at_index closes (i - 1)) = true)
    by (apply Qle_bool_iff, H; now left).
  rewrite Hd. reflexivity.
Qed.

(** With no negative difference the second loop keeps a zero [avgLoss]
    at zero. *)
Lemma smooth_loss_stays_zero closes period idxs acc :
  (forall i, In i idxs -> 0 <= at_index closes i - at_index closes (i - 1)) ->
  snd acc == 0 ->
  snd (fold_left (smooth_step closes period) idxs acc) == 0.
Proof.
  revert acc. induction idxs as [|i idxs IH]; intros acc H H0; [exact H0|].
  simpl. apply IH; [intros j Hj; apply H; now right|].
  unfold smooth_step. cbn [snd].
  assert (Hd : Qlt_bool (at_index closes i - at_index closes (i - 1)) 0 = false)
    by (apply Qlt_bool_false_iff, H; now left).
  rewrite Hd, H0. unfold Qdiv. ring.
Qed.

(** Both loops keep their two accumulators non-negative. *)
Lemma seed_nonneg closes idxs acc :
  0 <= fst acc -> 0 <= snd acc ->
  0 <= fst (fold_left (seed_step closes) idxs acc)
  /\ 0 <= snd (fold_left (seed_step closes) idxs acc).
Proof.
  revert acc. induction idxs as [|i idxs IH]; intros acc Hg Hl; [now split|].
  simpl. unfold seed_step at 2 4.
  destruct (Qle_bool 0 (at_index closes i - at_index closes (i - 1))) eqn:E.
  - apply Qle_bool_iff in E. apply IH; cbn [fst snd]; [lra | exact Hl].
  - apply IH; cbn [fst snd]; [exact Hg|].
    pose proof (Qabs_nonneg (at_index closes i - at_index closes (i - 1))). lra.
Qed.

Lemma smooth_nonneg closes period idxs acc :
  (1 <= period)%nat ->
  0 <= fst acc -> 0 <= snd acc ->
  0 <= fst (fold_left (smooth_step closes period) idxs acc)
  /\ 0 <= snd (fold_left (smooth_step closes period) idxs acc).
Proof.
  intros Hp. pose proof (of_nat_pos period Hp) as Hpos.
  pose proof (of_nat_pred_nonneg period Hp) as Hpred.
  revert acc. induction idxs as [|i idxs IH]; intros acc Hg Hl; [now split|].
  simpl. apply IH; unfold smooth_step; cbn [fst snd].
  - apply Qdiv_nonneg; [|exact Hpos].
    pose proof (Qmult_le_0_compat _ _ Hg Hpred).
    destruct (Qlt_bool 0 (at_index closes i - at_index closes (i - 1))) eqn:E.
    + apply Qlt_bool_iff in E. lra.
    + lra.
  - apply Qdiv_nonneg; [|exact Hpos].
    pose proof (Qmult_le_0_compat _ _ Hl Hpred).
    destruct (Qlt_bool (at_index closes i - at_index closes (i - 1)) 0) eqn:E.
    + pose proof (Qabs_nonneg (at_index closes i - at_index closes (i - 1))). lra.
    + lra.
Qed.

(** The closing formula stays between 0 and 100 when the averages are
    non-negative and the loss is not zero. *)
Lemma rsi_formula_bounds avgGain avgLoss :
  0 <= avgGain -> 0 < avgLoss ->
  0 <= 100 - 100 / (1 + avgGain / avgLoss) <= 100.
Proof.
  intros Hg Hl.
  pose proof (Qdiv_nonneg avgGain avgLoss Hg Hl) as Hrs.
  set (rs := avgGain / avgLoss) in *.
  assert (Hy : 0 < 1 + rs) by lra.
  assert (Hlo : 0 <= 100 / (1 + rs)) by (apply Qdiv_nonneg; [lra | exact Hy]).
  assert (Hhi : 100 / (1 + rs) <= 100)
    by (apply Qle_shift_div_r; [exact Hy | lra]).
  split; lra.
Qed.

Lemma calculateRSI_bounds closes period :
  (1 <= period)%nat ->
  0 <= calculateRSI closes period <= 100.
Proof.
  intros Hp. unfold calculateRSI.
  destruct (length closes <? period + 1)%nat; [split; lra|].
  pose proof (of_nat_pos period Hp) as Hpos.
  destruct (seed_nonneg closes (seed_indices period) (0, 0)) as [Hg Hl];
    [cbn; lra | cbn; lra |].
  set (seeded := fold_left (seed_step closes) (seed_indices period) (0, 0)) in *.
  destruct (smooth_nonneg closes period (smooth_indices closes period)
              (fst seeded / of_nat period, snd seeded / of_nat period) Hp)
    as [HG HL]; [apply Qdiv_nonneg; assumption | apply Qdiv_nonneg; assumption |].
  set (smoothed := fold_left (smooth_step closes period) _ _) in *.
  destruct (Qeq_bool (snd smoothed) 0) eqn:E; [split; lra|].
  apply rsi_formula_bounds; [exact HG|].
  apply Qeq_bool_neq in E.
  destruct (Qle_lt_or_eq _ _ HL) as [Hlt|Heq]; [exact Hlt|].
  exfalso. apply E. symmetry. exact Heq.
Qed.

(** C4. A sequence with fewer than [period + 1] closes gives 0, whatever
    the closes and the period are. *)
Theorem calculateRSI_insufficient_data (closes : list Q) (period : nat) :
  (length closes < period + 1)%nat ->
  calculateRSI closes period = 0.
Proof.
  intros H. unfold calculateRSI.
  destruct (Nat.ltb_spec (length closes) (period + 1)); [reflexivity | lia].
Qed.

Lemma calculateRSI_insufficient_data_witness :
  (length [101; 7; 3000] < 6 + 1)%nat /\ calculateRSI [101; 7; 3000] 6 = 0.
Proof.
  split; [simpl; lia|].
  apply (calculateRSI_insufficient_data [101; 7; 3000] 6). simpl. lia.
Defined.

(** C5. On a non-decreasing sequence of at least [period + 1] closes (a
    flat one included) the result is exactly 100: no difference is
    negative, so the average loss ends at zero.  The period is at least 1,
    as everywhere a division by the period is involved. *)
Theorem calculateRSI_non_decreasing (closes : list Q) (period : nat) :
  Sorted Qle closes ->
  (1 <= period)%nat ->
  (period + 1 <= length closes)%nat ->
  calculateRSI closes period = 100.
Proof.
  intros Hs Hp Hlen. unfold calculateRSI.
  destruct (Nat.ltb_spec (length closes) (period + 1)); [lia|].
  assert (Hseed : forall i, In i (seed_indices period) ->
              0 <= at_index closes i - at_index closes (i - 1)).
  { intros i Hi. apply Sorted_diff_nonneg; [exact Hs|].
    eapply seed_indices_in_range; eassumption. }
  assert (Hsmooth : forall i, In i (smooth_indices closes period) ->
              0 <= at_index closes i - at_index closes (i - 1)).
  { intros i Hi. apply Sorted_diff_nonneg; [exact Hs|].
    eapply smooth_indices_in_range; eassumption. }
  rewrite (seed_losses_untouched closes _ (0, 0) Hseed). cbn [snd].
  set (seeded := fold_left (seed_step closes) (seed_indices period) (0, 0)).
  assert (Hz : snd (fold_left (smooth_step closes period)
                      (smooth_indices closes period)
                      (fst seeded / of_nat period, 0 / of_nat period)) == 0).
  { apply smooth_loss_stays_zero; [exact Hsmooth|]. cbn [snd].
    unfold Qdiv. ring. }
  apply Qeq_bool_iff in Hz. rewrite Hz. reflexivity.
Qed.

Lemma calculateRSI_non_decreasing_witness :
  calculateRSI [1; 2; 2; 3; 5; 5; 8; 13; 13] 6 = 100.
Proof.
  apply (calculateRSI_non_decreasing [1; 2; 2; 3; 5; 5; 8; 13; 13] 6).
  - repeat constructor; unfold Qle; simpl; lia.
  - lia.
  - simpl. lia.
Defined.


End RSIFacts.

(** ** The built-in sort *)

Section SortFacts.
Context {A : Type} (key : A -> Q) (comparator : A -> A -> Q).
Hypothesis comparator_key :
  forall a b, (comparator a b <= 0)%Q <-> (key b <= key a)%Q.

Local Abbreviation key_desc := (JS.key_desc key).

Lemma insert_Permutation x l : Permutation (JS.insert comparator x l) (x :: l).
Proof.
  induction l as [|y ys IH]; simpl; [reflexivity|].
  destruct (Qle_bool (comparator x y) 0); [reflexivity|].
  rewrite IH. apply perm_swap.
Qed.

Lemma sort_Permutation l : Permutation (JS.sort comparator l) l.
Proof.
  induction l as [|x xs IH]; simpl; [reflexivity|].
  rewrite insert_Permutation. now constructor.
Qed.

Lemma insert_StronglySorted x l :
  StronglySorted key_desc l -> StronglySorted key_desc (JS.insert comparator x l).
Proof.
  induction 1 as [|y ys Hs IH Hall]; simpl.
  - repeat constructor.
  - destruct (Qle_bool (comparator x y) 0) eqn:E.
    + apply Qle_bool_iff, comparator_key in E.
      constructor; [now constructor|].
      constructor; [exact E|].
      eapply Forall_impl; [exact Hall|].
      intros z Hz. unfold JS.key_desc in *. simpl in *. lra.
    + assert (Hlt : (key x < key y)%Q).
      { apply Qnot_le_lt. intros Hle. apply comparator_key, Qle_bool_iff in Hle.
        congruence. }
      constructor; [exact IH|].
      apply Forall_forall. intros z Hz.
      apply list_elem_of_In in Hz.
      apply (Permutation_in _ (insert_Permutation x ys)) in Hz.
      destruct Hz as [->|Hz].
      * unfold JS.key_desc. lra.
      * rewrite Forall_forall in Hall. apply Hall, list_elem_of_In, Hz.
Qed.

Lemma sort_StronglySorted l : StronglySorted key_desc (JS.sort comparator l).
Proof.
  induction l as [|x xs IH]; simpl; [constructor|].
  now apply insert_StronglySorted.
Qed.

(** In a sorted list an earlier position never has the smaller key. *)
Lemma StronglySorted_lookup_le (l : list A) i j x y :
  StronglySorted key_desc l ->
  l !! i = Some x -> l !! j = Some y -> (i <= j)%nat ->
  (key y <= key x)%Q.
Proof.
  intros Hs. revert i j. induction Hs as [|z zs Hs IH Hall]; intros i j Hi Hj Hij.
  - discriminate.
  - destruct i as [|i], j as [|j]; simpl in *; simplify_eq.
    + lra.
    + rewrite Forall_forall in Hall. apply Hall.
      eapply list_elem_of_lookup_2; eassumption.
    + lia.
    + apply (IH i j); [assumption..|lia].
Qed.
End SortFacts.

(** ** The rank map *)

Section RankFacts.
Import Num Rank.

Lemma sorted_mcapList_Permutation feed :
  Permutation (sorted_mcapList feed) (mcapList feed).
Proof. apply sort_Permutation. Qed.

Lemma sorted_mcapList_sorted feed :
  StronglySorted (JS.key_desc mcap) (sorted_mcapList feed).
Proof.
  apply sort_StronglySorted. intros a b. unfold by_mcap_desc. split; intros; lra.
Qed.

(** What the feed contributes: the USDT entries with a positive price and
    a positive supply, with price times supply as market cap. *)
Lemma mcap_entry_Some item e :
  mcap_entry item = Some e <->
  exists price_value cs_value,
    item_q item = "USDT" /\ item_c item = Some price_value
    /\ item_cs item = Some cs_value
    /\ (0 < price_value)%Q /\ (0 < cs_value)%Q
    /\ e = {| base := item_b item; mcap := (price_value * cs_value)%Q |}.
Proof.
  unfold mcap_entry. split.
  - destruct (item_cs item) as [cs_value|]; [|discriminate].
    destruct (String.eqb_spec (item_q item) "USDT") as [Hq|]; [|discriminate].
    destruct (Qeq_bool cs_value 0); [discriminate|]. simpl.
    destruct (Qlt_bool 0 (default 0%Q (item_c item))) eqn:Hp; [|discriminate].
    destruct (Qlt_bool 0 cs_value) eqn:Hc; [|discriminate]. simpl.
    intros [= <-]. apply Qlt_bool_iff in Hp, Hc.
    destruct (item_c item) as [price_value|]; simpl in *.
    + exists price_value, cs_value. repeat split; assumption.
    + exfalso. revert Hp. apply Qlt_irrefl.
  - intros (price_value & cs_value & Hq & Hc & Hcs & Hp & Hs & ->).
    rewrite Hcs, Hq, Hc. simpl.
    assert (Hne : Qeq_bool cs_value 0 = false).
    { destruct (Qeq_bool cs_value 0) eqn:E; [|reflexivity].
      apply Qeq_bool_iff in E. lra. }
    rewrite Hne. simpl.
    apply Qlt_bool_iff in Hp, Hs. rewrite Hp, Hs. reflexivity.
Qed.

(** One pass of the [forEach] that fills the map: a key that already has
    a rank keeps it; any other key gets the position of its first entry in
    the list, counted from [index + 1]. *)
Lemma assign_ranks_lookup items index (m : gmap string nat) b :
  assign_ranks items index m !! b =
  if JS.truthy_nat (m !! b) then m !! b
  else match list_find (fun e => base e = b) items with
       | Some (i, _) => Some (index + i + 1)%nat
       | None => m !! b
       end.
Proof.
  revert index m. induction items as [|item rest IH]; intros index m.
  - simpl. now destruct (JS.truthy_nat (m !! b)).
  - cbn [assign_ranks]. rewrite IH. unfold assign_rank. csimpl.
    destruct (decide (base item = b)) as [Heq|Hne].
    + rewrite Heq.
      destruct (JS.truthy_nat (m !! b)) eqn:Ht; simpl.
      * rewrite Ht. reflexivity.
      * rewrite lookup_insert_eq. rewrite Nat.add_1_r at 1. simpl.
        f_equal. lia.
    + assert (Hm : (if negb (JS.truthy_nat (m !! base item))
                    then <[base item := (index + 1)%nat]> m else m) !! b = m !! b).
      { destruct (negb _); [|reflexivity]. now rewrite lookup_insert_ne. }
      rewrite Hm.
      destruct (JS.truthy_nat (m !! b)); [reflexivity|].
      destruct (list_find (fun e => base e = b) rest) as [[i e]|]; simpl.
      * f_equal. lia.
      * reflexivity.
Qed.

Lemma buildRankMap_lookup feed b :
  buildRankMap feed !! b =
  match list_find (fun e => base e = b) (sorted_mcapList feed) with
  | Some (i, _) => Some (i + 1)%nat
  | None => None
  end.
Proof.
  unfold buildRankMap. rewrite assign_ranks_lookup, lookup_empty. simpl.
  now destruct (list_find _ _) as [[i e]|].
Qed.

(** Every rank in the map is at least 1, so every rank is truthy. *)
Lemma buildRankMap_positive feed b r :
  buildRankMap feed !! b = Some r -> (1 <= r)%nat.
Proof.
  rewrite buildRankMap_lookup.
  destruct (list_find _ _) as [[i e]|]; intros [= <-]. lia.
Qed.

End RankFacts.

(** ** Strings *)

Section StringFacts.

Lemma append_cons ch s t :
  (String ch s ++ t)%string = String ch (s ++ t)%string.
Proof. reflexivity. Qed.

Lemma append_nil_l s : ("" ++ s)%string = s.
Proof. reflexivity. Qed.

Lemma append_nil_r s : (s ++ "")%string = s.
Proof.
  induction s as [|ch s IH]; [reflexivity|].
  rewrite append_cons. now f_equal.
Qed.

Lemma prefix_nil s : String.prefix "" s = true.
Proof. destruct s; reflexivity. Qed.

Lemma prefix_app p rest : String.prefix p (p ++ rest) = true.
Proof.
  induction p as [|ch p IH]; [apply prefix_nil|].
  rewrite append_cons. simpl.
  destruct (Ascii.ascii_dec ch ch); [exact IH | congruence].
Qed.

Lemma prefix_true_app p s :
  String.prefix p s = true -> exists rest, s = (p ++ rest)%string.
Proof.
  revert s. induction p as [|ch p IH]; intros s H.
  - now exists s.
  - destruct s as [|ch' s]; [discriminate|]. simpl in H.
    destruct (Ascii.ascii_dec ch ch') as [->|]; [|discriminate].
    destruct (IH s H) as [rest ->]. now exists rest.
Qed.

Lemma substring_from_app p rest :
  JS.substring_from (String.length p) (p ++ rest) = rest.
Proof.
  induction p as [|ch p IH]; [reflexivity|].
  rewrite append_cons. simpl. exact IH.
Qed.

Lemma startsWith_iff s p :
  JS.startsWith s p = true <-> exists rest, s = (p ++ rest)%string.
Proof.
  unfold JS.startsWith. split.
  - apply prefix_true_app.
  - intros [rest ->]. apply prefix_app.
Qed.

Lemma remove_first_unfold pat s :
  JS.remove_first pat s =
  if String.prefix pat s then JS.substring_from (String.length pat) s
  else match s with
       | EmptyString => EmptyString
       | String ch s' => String ch (JS.remove_first pat s')
       end.
Proof. destruct s; reflexivity. Qed.

(** [replace] takes out the first occurrence: when the pattern matches at
    no position inside [pre], it is the occurrence right after [pre] that
    goes. *)
Lemma remove_first_app pat pre post :
  (forall k, (k < String.length pre)%nat ->
             String.prefix pat (JS.substring_from k (pre ++ pat ++ post)) = false) ->
  JS.remove_first pat (pre ++ pat ++ post) = (pre ++ post)%string.
Proof.
  induction pre as [|ch pre IH]; intros Hno.
  - rewrite !append_nil_l, remove_first_unfold, prefix_app.
    apply substring_from_app.
  - pose proof (Hno 0%nat ltac:(simpl; lia)) as H0.
    cbn [JS.substring_from] in H0. rewrite !append_cons in H0.
    rewrite (append_cons ch pre (pat ++ post)), (append_cons ch pre post).
    rewrite remove_first_unfold, H0. f_equal. apply IH.
    intros k Hk. specialize (Hno (S k)). rewrite append_cons in Hno.
    apply Hno. simpl. lia.
Qed.
End StringFacts.

(** ** Rank resolution *)

Section ResolveFacts.
Import Rank.

Lemma truthy_nat_Some r : (0 < r)%nat -> JS.truthy_nat (Some r) = true.
Proof. destruct r; [lia | reflexivity]. Qed.


End ResolveFacts.

(** ** The product cache *)

Section ProductFacts.
Import Client.

(** A fetch that throws falls back on whatever the cache holds, however
    old it is. *)
Lemma fetchProductData_error_returns_cache cfg ex w :
  (has_products (products_data (cache_products w))
   && (now_at ex (ticks w) - products_timestamp (cache_products w) <? rankCacheTTL cfg)%Z
   = false) ->
  products_response ex (S (ticks w)) = ProductsError ->
  fetchProductData cfg ex w
  = (products_data (cache_products w), snd (Date_now ex w)).
Proof.
  intros Hstale Herr. unfold fetchProductData. simpl.
  rewrite Hstale, Herr.
  now destruct (products_data (cache_products w)).
Qed.

(** C10. Two failing fetches.  First: the cache holds a product list
    stored at time 0, the clock reads 4000000 (the hour has passed) and
    the payload arrives with [success = false]; the stale list is not
    returned, the empty list is.  Second: nothing was ever cached and
    the fetch throws; what comes back is the empty object the cache was
    initialised with, not an empty list (and [updateData] ends in its
    main [catch]). *)
Theorem fetchProductData_failure_paths :
  let btc := {| Rank.item_q := "USDT"; Rank.item_b := "BTC";
                Rank.item_c := Some 50000%Q; Rank.item_cs := Some 19000000%Q |} in
  let stale := set_products {| products_data := ProductList [btc];
                               products_timestamp := 0 |} initial_world in
  let unsuccessful := {| now_at := fun _ => 4000000%Z;
                         klines_response := fun _ _ _ _ => None;
                         products_response := fun _ => ProductsJson false None |} in
  let throwing := {| now_at := fun _ => 4000000%Z;
                     klines_response := fun _ _ _ _ => None;
                     products_response := fun _ => ProductsError |} in
  fst (fetchProductData CONFIG unsuccessful stale) = ProductList []
  /\ products_data (cache_products stale) = ProductList [btc]
  /\ fst (fetchProductData CONFIG throwing stale) = ProductList [btc]
  /\ fst (fetchProductData CONFIG throwing initial_world) = EmptyObject
  /\ (forall (W : Type) cfg (client : Scanner.DataClient W) meta w schedule,
        Scanner.productList meta = EmptyObject ->
        Scanner.updateData cfg client meta w schedule = Scanner.MainLoopError).
Proof.
  cbv zeta. repeat split.
  intros W cfg client meta w schedule H. unfold Scanner.updateData.
  now rewrite H.
Qed.
End ProductFacts.

(** ** The staged evaluation of one symbol *)

Section StageFacts.
Import Num Scanner.

(** What a call of [fetchKlines] does to the two logs: one more
    invocation, and at most one more request, for the symbol and the
    interval of the call. *)
Lemma fetchKlines_logs cfg ex sym itv limit w :
  let w' := snd (Client.fetchKlines cfg ex sym itv limit w) in
  Client.calls w' = Client.calls w ++ [(sym, itv)]
  /\ (Client.requests w' = Client.requests w
      \/ Client.requests w' = Client.requests w ++ [(sym, itv)]).
Proof.
  unfold Client.fetchKlines. simpl.
  destruct (match _ with Some _ => _ | None => false end).
  - simpl. split; [reflexivity | now left].
  - simpl. destruct (Client.klines_response _ _ _ _ _); simpl;
      (split; [reflexivity | now right]).
Qed.

(** C2. A symbol whose 1h reading at period 6 is below 90: the
    evaluation returns no match, and it ends in the state the first call
    of [fetchKlines] left.  The accessor was invoked once, for the 1h
    series; nothing was requested from the exchange after that call, so
    no request for the 4h series went out. *)
Theorem processSymbol_early_exit
        (cfg : Client.Config) (ex : Client.Exchange) (meta : Metadata)
        (rankMap : gmap string nat) (sym : string) (w : Client.World) :
  let stage_a := Client.fetchKlines cfg ex sym "1h" (Client.rsiLimit cfg) w in
  (RSI.calculateRSI (fst stage_a) 6 < 90)%Q ->
  let run := run_task (real_client cfg ex) (processSymbol cfg meta rankMap sym) w in
  fst run = None
  /\ snd run = snd stage_a
  /\ Client.calls (snd run) = Client.calls w ++ [(sym, "1h")]
  /\ (Client.requests (snd run) = Client.requests w
      \/ Client.requests (snd run) = Client.requests w ++ [(sym, "1h")])
  /\ (~ In (sym, "4h") (Client.requests w) ->
      ~ In (sym, "4h") (Client.requests (snd run))).
Proof.
  intros stage_a Hlow run.
  assert (Hrun : run = (None, snd stage_a)).
  { unfold run, processSymbol. cbn [run_task]. unfold real_client.
    fold stage_a. destruct stage_a as [k1h w1] eqn:Hs. cbn [fst snd] in *.
    apply Qlt_bool_iff in Hlow. rewrite Hlow. reflexivity. }
  rewrite Hrun. cbn [fst snd].
  destruct (fetchKlines_logs cfg ex sym "1h" (Client.rsiLimit cfg) w) as [Hc Hr].
  fold stage_a in Hc, Hr.
  split; [reflexivity|]. split; [reflexivity|]. split; [exact Hc|].
  split; [exact Hr|].
  intros Hnot Hin. destruct Hr as [Hr|Hr]; rewrite Hr in Hin.
  - exact (Hnot Hin).
  - apply in_app_or in Hin as [Hin|[Hin|[]]]; [exact (Hnot Hin)|].
    discriminate Hin.
Qed.

Lemma processSymbol_early_exit_witness :
  let falling := [10; 9; 8; 7; 6; 5; 4; 3]%Q in
  let ex := {| Client.now_at := fun _ => 1000%Z;
               Client.klines_response := fun _ _ _ _ => Some falling;
               Client.products_response := fun _ => Client.ProductsError |} in
  let meta := {| symbols := ["BTCUSDT"]; baseMap := ∅; stats := ∅;
                 fundingMap := ∅; fundingIntervals := ∅;
                 productList := Client.ProductList [] |} in
  let run := run_task (real_client Client.CONFIG ex)
                      (processSymbol Client.CONFIG meta ∅ "BTCUSDT")
                      Client.initial_world in
  fst run = None /\ Client.calls (snd run) = [("BTCUSDT", "1h")].
Proof.
  cbv zeta.
  pose proof (processSymbol_early_exit Client.CONFIG
                {| Client.now_at := fun _ => 1000%Z;
                   Client.klines_response := fun _ _ _ _ => Some [10; 9; 8; 7; 6; 5; 4; 3]%Q;
                   Client.products_response := fun _ => Client.ProductsError |}
                {| symbols := ["BTCUSDT"]; baseMap := ∅; stats := ∅;
                   fundingMap := ∅; fundingIntervals := ∅;
                   productList := Client.ProductList [] |}
                ∅ "BTCUSDT" Client.initial_world) as H.
  cbv zeta in H.
  destruct H as (Hnone & _ & Hcalls & _); [vm_compute; reflexivity|].
  split; [exact Hnone | exact Hcalls].
Defined.

(** The value of the evaluation over a fixed dataset: a match exactly
    when both stage tests pass, and then the match of that symbol with
    the two readings. *)
Lemma processSymbol_value cfg meta rankMap dataset sym :
  task_value dataset (processSymbol cfg meta rankMap sym) =
  if qualifies dataset (Client.rsiLimit cfg) sym
  then Some {| symbol := sym;
               volume := Client.volume_of (stats meta) sym;
               funding := lookup_or (fundingMap meta) sym 0;
               interval := lookup_or (fundingIntervals meta) sym 8;
               rank := Rank.resolveRank (baseMap meta) rankMap sym;
               rsi1h := RSI.calculateRSI (dataset sym "1h" (Client.rsiLimit cfg)) 6;
               rsi4h := RSI.calculateRSI (dataset sym "4h" (Client.rsiLimit cfg)) 6 |}
  else None.
Proof.
  unfold task_value, processSymbol, qualifies, mock_client. cbn [run_task fst].
  unfold Qlt_bool.
  destruct (Qle_bool 90 _); cbn [negb andb run_task fst]; [|reflexivity].
  destruct (Qle_bool 80 _); reflexivity.
Qed.

(** The evaluation asks for the 1h series and, at most, for the 4h series
    after it, both at the configured lookback. *)
Lemma processSymbol_calls cfg meta rankMap sym :
  asks_only (stage_call cfg) (processSymbol cfg meta rankMap sym).
Proof.
  unfold processSymbol. cbn [asks_only].
  split; [split; [now left | reflexivity]|].
  intros k1h. destruct (Qlt_bool _ 90); cbn [asks_only]; [exact I|].
  split; [split; [now right | reflexivity]|].
  intros k4h. destruct (Qlt_bool _ 80); exact I.
Qed.


End StageFacts.

(** ** The worker pool *)

Section PoolFacts.
Import Scanner.
Context {W : Type}.
Variable client : DataClient W.
Variable asked : string -> string -> nat -> Prop.
Variable dataset : string -> string -> nat -> list Q.
Variable valid : W -> Prop.
Variable process : string -> Task (option ScanResult).
Variable TARGET_SYMBOLS : list string.

Local Abbreviation step := (worker client process TARGET_SYMBOLS).
Local Abbreviation run := (run_schedule client process TARGET_SYMBOLS).
Local Abbreviation flight := (all_in_flight dataset).
Local Abbreviation invariant :=
  (pool_invariant asked dataset valid process TARGET_SYMBOLS).

Lemma run_app s1 s2 (p : Pool W) : run (s1 ++ s2) p = run s2 (run s1 p).
Proof. revert p. induction s1 as [|i s1 IH]; intros p; simpl; [reflexivity | apply IH]. Qed.

Lemma step_length i (p p' : Pool W) :
  step i p = Some p' -> length (workers p') = length (workers p).
Proof.
  unfold worker. intros H.
  destruct (workers p !! i) as [[|[r|sym itv limit k]|]|]; try discriminate.
  - destruct (index p <? total TARGET_SYMBOLS)%nat.
    + destruct (TARGET_SYMBOLS !! index p); [|discriminate].
      injection H as <-. apply length_insert.
    + injection H as <-. apply length_insert.
  - injection H as <-. apply length_insert.
  - destruct (client sym itv limit (world p)). injection H as <-.
    apply length_insert.
Qed.

Lemma run_length schedule (p : Pool W) :
  length (workers (run schedule p)) = length (workers p).
Proof.
  revert p. induction schedule as [|i rest IH]; intros p; simpl; [reflexivity|].
  rewrite IH. destruct (step i p) as [p'|] eqn:E; simpl; [|reflexivity].
  eapply step_length, E.
Qed.

(** Replacing the state of one worker replaces its share of what is in
    flight and nothing else. *)
Lemma flight_insert (ws : list WorkerState) i s s' :
  ws !! i = Some s ->
  exists before after,
    flight ws = before ++ in_flight dataset s ++ after
    /\ flight (<[i := s']> ws) = before ++ in_flight dataset s' ++ after.
Proof.
  intros H.
  exists (flight (take i ws)), (flight (drop (S i) ws)). split.
  - rewrite <- (take_drop_middle ws i s H) at 1.
    unfold all_in_flight. rewrite map_app, concat_app. reflexivity.
  - rewrite insert_take_drop by (eapply lookup_lt_Some, H).
    unfold all_in_flight. rewrite map_app, concat_app. reflexivity.
Qed.

Lemma delivered_single (v : option ScanResult) :
  omap id [v] = match v with Some r => [r] | None => [] end.
Proof. now destruct v. Qed.

Lemma outcomes_snoc syms sym :
  outcomes dataset process (syms ++ [sym]) =
  outcomes dataset process syms
  ++ match task_value dataset (process sym) with Some r => [r] | None => [] end.
Proof.
  unfold outcomes. rewrite omap_app. simpl.
  now destruct (task_value dataset (process sym)).
Qed.

Lemma flight_replicate_idle n : flight (replicate n AtLoopTest) = [].
Proof. induction n as [|n IH]; [reflexivity | exact IH]. Qed.

Lemma settled_flight (ws : list WorkerState) :
  forallb is_terminated ws = true -> flight ws = [].
Proof.
  induction ws as [|s ws IH]; [reflexivity|]. simpl.
  destruct s; try discriminate. simpl. exact IH.
Qed.

Lemma settled_not_running (ws : list WorkerState) :
  forallb is_terminated ws = true ->
  Forall (fun s => s <> Terminated) ws ->
  ws = [].
Proof.
  destruct ws as [|s ws]; [reflexivity|]. simpl. intros Hall Hnone.
  apply Forall_cons in Hnone as [Hs _]. destruct s; try discriminate.
  congruence.
Qed.

Section Deterministic.
Hypothesis client_deterministic : Deterministic asked client dataset valid.
Hypothesis process_calls : forall sym, asks_only asked (process sym).

Lemma start_invariant CONCURRENCY w :
  valid w -> invariant (start_workers TARGET_SYMBOLS CONCURRENCY w).
Proof.
  intros Hw. constructor; simpl.
  - exact Hw.
  - apply Forall_forall. intros s Hs.
    apply elem_of_replicate in Hs as [-> _]. exact I.
  - lia.
  - reflexivity.
  - rewrite flight_replicate_idle. reflexivity.
  - rewrite flight_replicate_idle. reflexivity.
  - left. apply Forall_forall. intros s Hs.
    apply elem_of_replicate in Hs as [-> _]. discriminate.
Qed.

Lemma step_invariant i (p p' : Pool W) :
  invariant p -> step i p = Some p' -> invariant p'.
Proof.
  intros [Hv Hcalls Hidx Has Hres Hcomp Hexit] Hstep. unfold worker in Hstep.
  destruct (workers p !! i) as [s|] eqn:Hi; [|discriminate].
  destruct s as [|[result|sym itv limit k]|]; [| | |discriminate].
  - destruct (Nat.ltb_spec (index p) (total TARGET_SYMBOLS)) as [Hlt|Hge].
    + destruct (TARGET_SYMBOLS !! index p) as [sym|] eqn:Hsym; [|discriminate].
      injection Hstep as <-.
      destruct (flight_insert _ i _ (InProcessSymbol (process sym)) Hi)
        as (before & after & Hold & Hnew).
      constructor; cbn [world index completed results workers assigned].
      * exact Hv.
      * apply Forall_insert; [exact Hcalls | apply process_calls].
      * lia.
      * rewrite Has, seq_S. reflexivity.
      * rewrite Hnew. rewrite Hold in Hres.
        rewrite (take_S_r _ _ _ Hsym), outcomes_snoc, <- Hres.
        cbn [in_flight]. rewrite !omap_app, delivered_single.
        change (omap id []) with (@nil ScanResult).
        destruct (task_value dataset (process sym)) as [r|]; cbn [app].
        -- solve_Permutation.
        -- rewrite !app_nil_r. reflexivity.
      * rewrite Hnew. rewrite Hold in Hcomp. cbn [in_flight] in *.
        rewrite !length_app in *. simpl in *. lia.
      * destruct Hexit as [Hrun|Hend]; [|right; lia].
        left. apply Forall_insert; [exact Hrun | discriminate].
    + injection Hstep as <-.
      destruct (flight_insert _ i _ Terminated Hi)
        as (before & after & Hold & Hnew).
      assert (Hsame : flight (<[i := Terminated]> (workers p)) = flight (workers p)).
      { rewrite Hnew, Hold. reflexivity. }
      constructor; cbn [world index completed results workers assigned];
        try assumption.
      * apply Forall_insert; [exact Hcalls | exact I].
      * rewrite Hsame. exact Hres.
      * rewrite Hsame. exact Hcomp.
      * right. exact Hge.
  - injection Hstep as <-.
    destruct (flight_insert _ i _ AtLoopTest Hi)
      as (before & after & Hold & Hnew).
    constructor; cbn [world index completed results workers assigned];
      try assumption.
    + apply Forall_insert; [exact Hcalls | exact I].
    + rewrite Hnew. rewrite Hold in Hres. rewrite <- Hres.
      cbn [in_flight]. rewrite !omap_app, delivered_single.
      change (task_value dataset (Return result)) with result.
      change (omap id []) with (@nil ScanResult).
      destruct result as [r|]; cbn [app].
      * solve_Permutation.
      * reflexivity.
    + rewrite Hnew. rewrite Hold in Hcomp. cbn [in_flight] in *.
      rewrite !length_app in *. simpl in *. lia.
    + destruct Hexit as [Hrun|Hend]; [|right; exact Hend].
      left. apply Forall_insert; [exact Hrun | discriminate].
  - destruct (client sym itv limit (world p)) as [closes w'] eqn:Hcall.
    injection Hstep as <-.
    assert (Hask : asks_only asked (AwaitKlines sym itv limit k)).
    { rewrite Forall_lookup in Hcalls. exact (Hcalls i _ Hi). }
    destruct Hask as [Hasked Hnext].
    pose proof (deterministic_value _ _ _ _ client_deterministic
                  sym itv limit (world p) Hasked Hv) as Hvalue.
    pose proof (deterministic_valid _ _ _ _ client_deterministic
                  sym itv limit (world p) Hasked Hv) as Hvalid.
    rewrite Hcall in Hvalue, Hvalid. cbn [fst snd] in Hvalue, Hvalid. subst closes.
    destruct (flight_insert _ i _ (InProcessSymbol (k (dataset sym itv limit))) Hi)
      as (before & after & Hold & Hnew).
    assert (Hsame : flight (<[i := InProcessSymbol (k (dataset sym itv limit))]> (workers p))
                    = flight (workers p)).
    { rewrite Hnew, Hold. reflexivity. }
    constructor; cbn [world index completed results workers assigned];
      try assumption.
    + apply Forall_insert; [exact Hcalls | apply Hnext].
    + rewrite Hsame. exact Hres.
    + rewrite Hsame. exact Hcomp.
    + destruct Hexit as [Hrun|Hend]; [|right; exact Hend].
      left. apply Forall_insert; [exact Hrun | discriminate].
Qed.

Lemma run_invariant schedule (p : Pool W) :
  invariant p -> invariant (run schedule p).
Proof.
  revert p. induction schedule as [|i rest IH]; intros p Hp; simpl; [exact Hp|].
  apply IH. destruct (step i p) as [p'|] eqn:E; simpl; [|exact Hp].
  eapply step_invariant; eassumption.
Qed.

(** Once every worker has left the loop, every index was handed out
    once, every symbol was completed, and [results] holds the matches
    of the candidate list, in some order. *)
Lemma settled_pool CONCURRENCY w schedule :
  (1 <= CONCURRENCY)%nat ->
  valid w ->
  let p := run schedule (start_workers TARGET_SYMBOLS CONCURRENCY w) in
  all_settled p = true ->
  Permutation (results p) (outcomes dataset process TARGET_SYMBOLS)
  /\ assigned p = seq 0 (total TARGET_SYMBOLS)
  /\ completed p = total TARGET_SYMBOLS.
Proof.
  intros Hc Hw p Hsettled.
  destruct (run_invariant schedule _ (start_invariant CONCURRENCY w Hw))
    as [Hv _ Hidx Has Hres Hcomp Hexit].
  fold p in Hv, Hidx, Has, Hres, Hcomp, Hexit.
  unfold all_settled in Hsettled.
  rewrite (settled_flight _ Hsettled) in Hres, Hcomp.
  simpl in Hres, Hcomp. rewrite app_nil_r in Hres.
  assert (Hend : index p = total TARGET_SYMBOLS).
  { destruct Hexit as [Hrun|Hend]; [|lia].
    pose proof (settled_not_running _ Hsettled Hrun) as Hnil.
    pose proof (run_length schedule (start_workers TARGET_SYMBOLS CONCURRENCY w)) as Hlen.
    fold p in Hlen. rewrite Hnil in Hlen. simpl in Hlen.
    rewrite length_replicate in Hlen. lia. }
  rewrite Hend in *. rewrite take_ge in Hres by (unfold total; lia).
  split; [exact Hres|]. split; [exact Has | lia].
Qed.
End Deterministic.
End PoolFacts.

(** ** The pool settles *)

Section PoolSettles.
Import Scanner.
Context {W : Type}.
Variable client : DataClient W.
Variable process : string -> Task (option ScanResult).
Variable TARGET_SYMBOLS : list string.

Local Abbreviation step := (worker client process TARGET_SYMBOLS).
Local Abbreviation run := (run_schedule client process TARGET_SYMBOLS).

(** A worker inside [processSymbol] gets back to the loop test when it is
    resumed often enough; nothing but the data client's state, the
    counter [completed] and [results] changes on the way. *)
Lemma finish_task (t : Task (option ScanResult)) :
  forall i (p : Pool W),
    workers p !! i = Some (InProcessSymbol t) ->
    exists n,
      workers (run (replicate n i) p) = <[i := AtLoopTest]> (workers p)
      /\ index (run (replicate n i) p) = index p.
Proof.
  induction t as [result|sym itv limit k IH]; intros i p Hi.
  - exists 1%nat. simpl. unfold worker. rewrite Hi. simpl. now split.
  - destruct (client sym itv limit (world p)) as [closes w'] eqn:Hcall.
    set (p1 := {| world := w'; index := index p; completed := completed p;
                  results := results p;
                  workers := <[i := InProcessSymbol (k closes)]> (workers p);
                  assigned := assigned p |}).
    assert (Hstep : step i p = Some p1).
    { unfold worker. rewrite Hi, Hcall. reflexivity. }
    destruct (IH closes i p1) as (n & Hws & Hidx).
    { simpl. apply list_lookup_insert_eq. eapply lookup_lt_Some, Hi. }
    exists (S n). simpl. rewrite Hstep. simpl. rewrite Hws, Hidx. simpl.
    split; [apply list_insert_insert_eq | reflexivity].
Qed.

(** A worker at the loop test leaves the loop when it is resumed often
    enough: it takes what is left of the candidate list, symbol by
    symbol. *)
Lemma drain_cursor (remaining : nat) :
  forall i (p : Pool W),
    (total TARGET_SYMBOLS - index p <= remaining)%nat ->
    workers p !! i = Some AtLoopTest ->
    exists n, workers (run (replicate n i) p) = <[i := Terminated]> (workers p).
Proof.
  induction remaining as [|remaining IH]; intros i p Hrem Hi.
  - exists 1%nat. simpl. unfold worker. rewrite Hi.
    destruct (Nat.ltb_spec (index p) (total TARGET_SYMBOLS)); [lia|]. reflexivity.
  - destruct (Nat.ltb_spec (index p) (total TARGET_SYMBOLS)) as [Hlt|Hge].
    + destruct (lookup_lt_is_Some_2 TARGET_SYMBOLS (index p) Hlt) as [sym Hsym].
      set (p1 := {| world := world p; index := S (index p);
                    completed := completed p; results := results p;
                    workers := <[i := InProcessSymbol (process sym)]> (workers p);
                    assigned := assigned p ++ [index p] |}).
      assert (Hstep : step i p = Some p1).
      { unfold worker. rewrite Hi.
        destruct (Nat.ltb_spec (index p) (total TARGET_SYMBOLS)); [|lia].
        rewrite Hsym. reflexivity. }
      destruct (finish_task (process sym) i p1) as (n1 & Hws1 & Hidx1).
      { simpl. apply list_lookup_insert_eq. eapply lookup_lt_Some, Hi. }
      set (p2 := run (replicate n1 i) p1) in *.
      assert (Hws2 : workers p2 = workers p).
      { rewrite Hws1. simpl. rewrite list_insert_insert_eq.
        apply list_insert_id, Hi. }
      destruct (IH i p2) as (n2 & Hws3).
      { rewrite Hidx1. simpl. lia. }
      { rewrite Hws2. exact Hi. }
      exists (S (n1 + n2)). simpl. rewrite Hstep. simpl.
      rewrite replicate_add, run_app. fold p2. rewrite Hws3, Hws2. reflexivity.
    + exists 1%nat. simpl. unfold worker. rewrite Hi.
      destruct (Nat.ltb_spec (index p) (total TARGET_SYMBOLS)); [lia|]. reflexivity.
Qed.

(** A worker in any state leaves the loop when it is resumed often
    enough. *)
Lemma retire_worker i s (p : Pool W) :
  workers p !! i = Some s ->
  exists n, workers (run (replicate n i) p) = <[i := Terminated]> (workers p).
Proof.
  intros Hi. destruct s as [|t|].
  - exact (drain_cursor (total TARGET_SYMBOLS - index p) i p (le_n _) Hi).
  - destruct (finish_task t i p Hi) as (n1 & Hws1 & _).
    destruct (drain_cursor
                (total TARGET_SYMBOLS - index (run (replicate n1 i) p)) i
                (run (replicate n1 i) p) (le_n _)) as (n2 & Hws2).
    { rewrite Hws1. apply list_lookup_insert_eq. eapply lookup_lt_Some, Hi. }
    exists (n1 + n2)%nat. rewrite replicate_add, run_app, Hws2, Hws1.
    apply list_insert_insert_eq.
  - exists 0%nat. simpl. symmetry. apply list_insert_id, Hi.
Qed.

Lemma settle_workers (rest : list WorkerState) :
  forall done (p : Pool W),
    workers p = replicate done Terminated ++ rest ->
    exists schedule,
      workers (run schedule p) = replicate (done + length rest) Terminated.
Proof.
  induction rest as [|s rest IH]; intros done p Hws.
  - exists []. simpl. rewrite Hws, app_nil_r, Nat.add_0_r. reflexivity.
  - assert (Hi : workers p !! done = Some s).
    { rewrite Hws. apply list_lookup_middle. now rewrite length_replicate. }
    destruct (retire_worker done s p Hi) as (n & Hretired).
    destruct (IH (S done) (run (replicate n done) p)) as (more & Hmore).
    { rewrite Hretired, Hws.
      rewrite insert_app_r_alt by (rewrite length_replicate; lia).
      rewrite length_replicate, Nat.sub_diag. simpl.
      rewrite app_comm_cons, replicate_cons_app, <- app_assoc. reflexivity. }
    exists (replicate n done ++ more). rewrite run_app, Hmore.
    f_equal. simpl. lia.
Qed.

(** No schedule leads the pool into a state it cannot settle from: every
    schedule has a continuation after which all workers have left the
    loop. *)
Lemma pool_settles_from (p : Pool W) :
  exists schedule, all_settled (run schedule p) = true.
Proof.
  destruct (settle_workers (workers p) 0 p eq_refl) as (schedule & Hws).
  exists schedule. unfold all_settled. rewrite Hws.
  apply forallb_forall. intros s Hs.
  apply list_elem_of_In, elem_of_replicate in Hs as [-> _]. reflexivity.
Qed.

Lemma pool_settles CONCURRENCY w schedule :
  exists continuation,
    all_settled (run (schedule ++ continuation)
                     (start_workers TARGET_SYMBOLS CONCURRENCY w)) = true.
Proof.
  destruct (pool_settles_from (run schedule (start_workers TARGET_SYMBOLS CONCURRENCY w)))
    as (continuation & H).
  exists continuation. rewrite run_app. exact H.
Qed.
End PoolSettles.

(** ** A scan cycle *)

Section CycleFacts.
Import Num Scanner.

Lemma filter_Permutation_compat {A : Type} (f : A -> bool) (l1 l2 : list A) :
  Permutation l1 l2 -> Permutation (List.filter f l1) (List.filter f l2).
Proof.
  induction 1 as [|x l1 l2 _ IH|x y l|l1 l2 l3 _ IH1 _ IH2]; simpl.
  - reflexivity.
  - destruct (f x); [now constructor | exact IH].
  - destruct (f x), (f y); try reflexivity. apply perm_swap.
  - now transitivity (List.filter f l2).
Qed.

Lemma filter_all {A : Type} (f : A -> bool) (l : list A) :
  (forall x, In x l -> f x = true) -> List.filter f l = l.
Proof.
  induction l as [|x l IH]; intros H; simpl; [reflexivity|].
  rewrite (H x (or_introl eq_refl)). f_equal. apply IH.
  intros y Hy. apply H. now right.
Qed.

(** With no volume floor the candidate list is the symbol list in
    another order. *)
Lemma highVolumeSymbols_Permutation cfg meta :
  (Client.minVolume cfg == 0)%Q ->
  (forall s, In s (symbols meta) -> (0 <= Client.volume_of (stats meta) s)%Q) ->
  Permutation (highVolumeSymbols cfg meta) (symbols meta).
Proof.
  intros Hfloor Hvol. unfold highVolumeSymbols.
  rewrite sort_Permutation. rewrite filter_all; [reflexivity|].
  intros s Hs. apply Qle_bool_iff. rewrite Hfloor. now apply Hvol.
Qed.

(** The matches among a list of symbols are the symbols that pass both
    stage tests, each carrying its own 24h volume. *)
Lemma outcomes_symbols cfg meta rankMap dataset syms :
  map symbol (outcomes dataset (processSymbol cfg meta rankMap) syms)
  = List.filter (qualifies dataset (Client.rsiLimit cfg)) syms.
Proof.
  unfold outcomes. induction syms as [|s syms IH]; [reflexivity|].
  cbn [omap list_omap List.filter]. rewrite processSymbol_value.
  destruct (qualifies dataset (Client.rsiLimit cfg) s); cbn [map symbol].
  - f_equal. exact IH.
  - exact IH.
Qed.

Lemma outcomes_volume cfg meta rankMap dataset syms r :
  In r (outcomes dataset (processSymbol cfg meta rankMap) syms) ->
  volume r = Client.volume_of (stats meta) (symbol r).
Proof.
  unfold outcomes. intros Hr.
  apply list_elem_of_In, list_elem_of_omap in Hr as (s & _ & Hs).
  rewrite processSymbol_value in Hs.
  destruct (qualifies dataset (Client.rsiLimit cfg) s); [|discriminate].
  injection Hs as <-. reflexivity.
Qed.

Lemma by_volume_desc_key a b :
  (by_volume_desc a b <= 0)%Q <-> (volume b <= volume a)%Q.
Proof. unfold by_volume_desc. split; intros; lra. Qed.

End CycleFacts.

(** ** Concurrency *)

Section ConcurrencyFacts.
Import Scanner.

Lemma mock_client_deterministic {W : Type} asked dataset :
  Deterministic asked (@mock_client W dataset) dataset (fun _ => True).
Proof. constructor; intros; [reflexivity | exact I]. Qed.


End ConcurrencyFacts.

(** ** The script's own client over a steady exchange *)

Section RealClientFacts.
Import Scanner.

Lemma length_append s t :
  String.length (s ++ t) = (String.length s + String.length t)%nat.
Proof.
  induction s as [|ch s IH]; [reflexivity|].
  rewrite append_cons. simpl. now rewrite IH.
Qed.

Lemma append_inj_length s s' t t' :
  (s ++ t)%string = (s' ++ t')%string ->
  String.length t = String.length t' ->
  s = s' /\ t = t'.
Proof.
  revert s'. induction s as [|ch s IH]; intros [|ch' s'] Heq Hlen.
  - now split.
  - exfalso. rewrite append_nil_l in Heq. subst t.
    rewrite length_append in Hlen. simpl in Hlen. lia.
  - exfalso. rewrite append_nil_l in Heq. subst t'.
    rewrite length_append in Hlen. simpl in Hlen. lia.
  - rewrite !append_cons in Heq. injection Heq as -> Heq.
    destruct (IH s' Heq Hlen) as [-> ->]. now split.
Qed.

(** The keys of the 1h and 4h series of two symbols differ unless the
    symbols and the intervals are the same. *)
Lemma cacheKey_inj sym itv sym' itv' :
  itv = "1h" \/ itv = "4h" ->
  itv' = "1h" \/ itv' = "4h" ->
  Client.cacheKey sym itv = Client.cacheKey sym' itv' ->
  sym = sym' /\ itv = itv'.
Proof.
  unfold Client.cacheKey. intros Hi Hi' Hkey.
  apply append_inj_length in Hkey as [-> Htail].
  - split; [reflexivity|]. rewrite !append_cons, !append_nil_l in Htail.
    now injection Htail.
  - rewrite !length_append. destruct Hi as [->| ->], Hi' as [->| ->]; reflexivity.
Qed.

(** Over a steady exchange, and from a cache that agrees with it,
    [fetchKlines] is deterministic for the calls of the staged
    evaluation: a fresh entry and a new answer hold the same closes. *)
Lemma real_client_deterministic cfg ex answer :
  Client.steady_exchange ex answer ->
  Deterministic (stage_call cfg) (real_client cfg ex)
                (Client.closes_of answer) (Client.cache_agrees cfg answer).
Proof.
  intros Hsteady. constructor; intros sym itv limit w [Hitv ->] Hagree;
    unfold real_client, Client.fetchKlines; simpl.
  - destruct (Client.cache_klines w !! Client.cacheKey sym itv) as [entry|] eqn:Hentry.
    + destruct (_ <? _)%Z.
      * simpl. exact (Hagree sym itv entry Hitv Hentry).
      * rewrite Hsteady. unfold Client.closes_of.
        now destruct (answer sym itv (Client.rsiLimit cfg)).
    + rewrite Hsteady. unfold Client.closes_of.
      now destruct (answer sym itv (Client.rsiLimit cfg)).
  - assert (Hmiss :
        Client.cache_agrees cfg answer
          (snd (match Client.klines_response ex (S (Client.ticks w)) sym itv
                        (Client.rsiLimit cfg) with
                | Some closePrices =>
                    (closePrices,
                     Client.set_klines
                       (<[Client.cacheKey sym itv :=
                            {| Client.data := closePrices;
                               Client.timestamp := Client.now_at ex (Client.ticks w) |}]>
                          (Client.cache_klines w))
                       (Client.log_request sym itv
                          (snd (Client.Date_now ex (Client.log_call sym itv w)))))
                | None =>
                    ([], Client.log_request sym itv
                           (snd (Client.Date_now ex (Client.log_call sym itv w))))
                end))).
    { rewrite Hsteady.
      destruct (answer sym itv (Client.rsiLimit cfg)) as [closePrices|] eqn:Hanswer;
        intros sym' itv' entry' Hitv' Hentry'; simpl in Hentry'.
      - destruct (decide (Client.cacheKey sym itv = Client.cacheKey sym' itv'))
          as [Hkey|Hkey].
        + rewrite Hkey, lookup_insert_eq in Hentry'. injection Hentry' as <-.
          destruct (cacheKey_inj sym itv sym' itv' Hitv Hitv' Hkey) as [<- <-].
          simpl. unfold Client.closes_of. now rewrite Hanswer.
        + rewrite lookup_insert_ne in Hentry' by exact Hkey.
          exact (Hagree sym' itv' entry' Hitv' Hentry').
      - exact (Hagree sym' itv' entry' Hitv' Hentry'). }
    destruct (Client.cache_klines w !! Client.cacheKey sym itv) as [entry|] eqn:Hentry.
    + destruct (_ <? _)%Z; [|exact Hmiss].
      simpl. intros sym' itv' entry' Hitv' Hentry'.
      exact (Hagree sym' itv' entry' Hitv' Hentry').
    + exact Hmiss.
Qed.

Lemma initial_world_agrees cfg answer :
  Client.cache_agrees cfg answer Client.initial_world.
Proof. intros sym itv entry _ H. simpl in H. now rewrite lookup_empty in H. Qed.
End RealClientFacts.

Section CycleWitness.
Import Scanner.

End CycleWitness.

(** ** The scenario, run *)

Section ScenarioRuns.
Import Scanner.

Example rising_reads_100 : RSI.calculateRSI Scenario.rising 6 = 100%Q.
Proof. reflexivity. Qed.

Example falling_reads_0 : (RSI.calculateRSI Scenario.falling 6 == 0)%Q.
Proof. vm_compute. reflexivity. Qed.

Example too_short_reads_0 : RSI.calculateRSI [3; 1; 4; 1; 5; 9]%Q 6 = 0%Q.
Proof. reflexivity. Qed.

(** Of the two [BTC] entries only the one with the higher market cap
    counts; the [BUSD] entry does not. *)
Example feed_ranks :
  Rank.buildRankMap Scenario.feed !! "BTC" = Some 1%nat
  /\ Rank.buildRankMap Scenario.feed !! "ETH" = Some 2%nat
  /\ Rank.buildRankMap Scenario.feed !! "SOL" = None.
Proof. vm_compute. repeat split. Qed.

Example rank_of_symbols :
  Rank.resolveRank {["BTCUSDT" := "BTC"]} (Rank.buildRankMap Scenario.feed) "BTCUSDT"
  = Rank.RankNumber 1
  /\ Rank.resolveRank ∅ (Rank.buildRankMap Scenario.feed) "1000ETHUSDT"
     = Rank.RankNumber 2
  /\ Rank.resolveRank ∅ (Rank.buildRankMap Scenario.feed) "DOGEUSDT" = Rank.RankNA.
Proof. vm_compute. repeat split. Qed.

(** Three workers resumed in turn: [AUSDT] is the only match; the 4h
    series was asked for [AUSDT] and [CUSDT], not for [BUSDT]. *)
Example three_symbols_round_robin :
  updateData Client.CONFIG (real_client Client.CONFIG Scenario.exchange)
             Scenario.meta Client.initial_world Scenario.round_robin
  = Rendered [{| symbol := "AUSDT"; volume := 5000000; funding := 0;
                 interval := 8; rank := Rank.RankNA;
                 rsi1h := 100; rsi4h := 100 |}]
  /\ Client.calls
       (world (run_schedule (real_client Client.CONFIG Scenario.exchange)
                 (processSymbol Client.CONFIG Scenario.meta ∅)
                 (symbols Scenario.meta) Scenario.round_robin
                 (start_workers (symbols Scenario.meta) 3 Client.initial_world)))
     = [("AUSDT", "1h"); ("BUSDT", "1h"); ("CUSDT", "1h");
        ("AUSDT", "4h"); ("CUSDT", "4h")].
Proof. vm_compute. split; reflexivity. Qed.

(** Before the workers have settled nothing is rendered. *)
Example three_symbols_unsettled :
  updateData Client.CONFIG (real_client Client.CONFIG Scenario.exchange)
             Scenario.meta Client.initial_world [0; 1; 2]%nat
  = StillScanning.
Proof. vm_compute. reflexivity. Qed.

(** Two matches: the one with the higher 24h volume comes first. *)
Example two_matches_by_volume :
  match updateData Client.CONFIG (real_client Client.CONFIG Scenario.rising_exchange)
                   Scenario.two_risers Client.initial_world
                   [0; 1; 0; 1; 0; 1; 0; 1; 0; 1]%nat with
  | Rendered matches => map symbol matches
  | _ => []
  end = ["HIGHUSDT"; "LOWUSDT"].
Proof. vm_compute. reflexivity. Qed.

(** A second call inside the 60 seconds is served from the cache: two
    invocations, one request. *)
Example second_call_is_cached :
  let first := Client.fetchKlines Client.CONFIG Scenario.exchange "AUSDT" "1h" 35
                 Client.initial_world in
  let second := Client.fetchKlines Client.CONFIG Scenario.exchange "AUSDT" "1h" 35
                  (snd first) in
  fst second = fst first
  /\ Client.calls (snd second) = [("AUSDT", "1h"); ("AUSDT", "1h")]
  /\ Client.requests (snd second) = [("AUSDT", "1h")].
Proof. vm_compute. repeat split. Qed.
End ScenarioRuns.

(** ** The indicator on a falling series *)

Section RSIFalling.
Import Num RSI.
Local Open Scope Q_scope.

Lemma falling_adjacent (closes : list Q) i :
  Sorted (fun a b => b < a) closes ->
  (S i < length closes)%nat ->
  at_index closes (S i) < at_index closes i.
Proof.
  intros Hs. revert i. induction Hs as [|a l Hs IH Hhd]; intros i Hi.
  - simpl in Hi. lia.
  - destruct i as [|i].
    + destruct Hhd as [|b l' Hab]; [simpl in Hi; lia|]. exact Hab.
    + unfold at_index in *. simpl. apply IH. simpl in Hi. lia.
Qed.

Lemma falling_diff_negative (closes : list Q) i :
  Sorted (fun a b => b < a) closes ->
  (1 <= i < length closes)%nat ->
  at_index closes i - at_index closes (i - 1) < 0.
Proof.
  intros Hs Hi. destruct i as [|i]; [lia|].
  replace (S i - 1)%nat with i by lia.
  pose proof (falling_adjacent closes i Hs ltac:(lia)). lra.
Qed.

(** With every difference negative the first loop never touches [gains]
    and ends with positive [losses]. *)
Lemma seed_gains_untouched closes idxs acc :
  (forall i, In i idxs -> at_index closes i - at_index closes (i - 1) < 0) ->
  fst (fold_left (seed_step closes) idxs acc) = fst acc.
Proof.
  revert acc. induction idxs as [|i idxs IH]; intros acc H; [reflexivity|].
  simpl. rewrite IH by (intros j Hj; apply H; now right).
  unfold seed_step.
  destruct (Qle_bool 0 (at_index closes i - at_index closes (i - 1))) eqn:E;
    [|reflexivity].
  apply Qle_bool_iff in E. pose proof (H i (or_introl eq_refl)). lra.
Qed.

Lemma seed_losses_grow closes idxs acc :
  (forall i, In i idxs -> at_index closes i - at_index closes (i - 1) < 0) ->
  idxs <> [] ->
  0 <= snd acc ->
  0 < snd (fold_left (seed_step closes) idxs acc).
Proof.
  intros H Hne Hacc.
  destruct idxs as [|i idxs]; [congruence|]. clear Hne. simpl.
  pose proof (H i (or_introl eq_refl)) as Hi.
  assert (Hstep : 0 < snd (seed_step closes acc i)).
  { unfold seed_step.
    destruct (Qle_bool 0 (at_index closes i - at_index closes (i - 1))) eqn:E.
    - apply Qle_bool_iff in E. lra.
    - cbn [snd]. rewrite Qabs_neg by lra. lra. }
  assert (Hmono : forall l a, (forall j, In j l -> at_index closes j - at_index closes (j - 1) < 0) ->
                    0 < snd a -> 0 < snd (fold_left (seed_step closes) l a)).
  { induction l as [|j l IHl]; intros a Hl Ha; [exact Ha|].
    simpl. apply IHl; [intros k Hk; apply Hl; now right|].
    unfold seed_step.
    destruct (Qle_bool 0 (at_index closes j - at_index closes (j - 1))) eqn:E.
    - exact Ha.
    - cbn [snd].
      pose proof (Qabs_nonneg (at_index closes j - at_index closes (j - 1))). lra. }
  apply Hmono; [intros j Hj; apply H; now right | exact Hstep].
Qed.

(** With every difference negative the second loop keeps a zero
    [avgGain] at zero and a positive [avgLoss] positive. *)
Lemma smooth_falling closes period idxs acc :
  (1 <= period)%nat ->
  (forall i, In i idxs -> at_index closes i - at_index closes (i - 1) < 0) ->
  fst acc == 0 -> 0 < snd acc ->
  fst (fold_left (smooth_step closes period) idxs acc) == 0
  /\ 0 < snd (fold_left (smooth_step closes period) idxs acc).
Proof.
  intros Hp. pose proof (of_nat_pos period Hp) as Hpos.
  pose proof (of_nat_pred_nonneg period Hp) as Hpred.
  revert acc. induction idxs as [|i idxs IH]; intros acc H Hg Hl; [now split|].
  simpl. pose proof (H i (or_introl eq_refl)) as Hi.
  apply IH; [intros j Hj; apply H; now right | |];
    unfold smooth_step; cbn [fst snd].
  - assert (E : Qlt_bool 0 (at_index closes i - at_index closes (i - 1)) = false)
      by (apply Qlt_bool_false_iff; lra).
    rewrite E, Hg. unfold Qdiv. ring.
  - assert (E : Qlt_bool (at_index closes i - at_index closes (i - 1)) 0 = true)
      by (apply Qlt_bool_iff; exact Hi).
    rewrite E. rewrite Qabs_neg by lra.
    apply Qlt_shift_div_l; [exact Hpos|].
    pose proof (Qmult_le_0_compat _ _ (Qlt_le_weak _ _ Hl) Hpred). lra.
Qed.

(** X1. On a strictly decreasing sequence of at least [period + 1] closes
    the result is 0: every difference is a loss, so the average gain
    stays at zero and the average loss is positive. *)
Theorem calculateRSI_strictly_decreasing (closes : list Q) (period : nat) :
  Sorted (fun a b => b < a) closes ->
  (1 <= period)%nat ->
  (period + 1 <= length closes)%nat ->
  calculateRSI closes period == 0.
Proof.
  intros Hs Hp Hlen. unfold calculateRSI.
  destruct (Nat.ltb_spec (length closes) (period + 1)); [lia|].
  pose proof (of_nat_pos period Hp) as Hpos.
  assert (Hseed : forall i, In i (seed_indices period) ->
              at_index closes i - at_index closes (i - 1) < 0).
  { intros i Hi. apply falling_diff_negative; [exact Hs|].
    eapply seed_indices_in_range; eassumption. }
  assert (Hsmooth : forall i, In i (smooth_indices closes period) ->
              at_index closes i - at_index closes (i - 1) < 0).
  { intros i Hi. apply falling_diff_negative; [exact Hs|].
    eapply smooth_indices_in_range; eassumption. }
  rewrite (seed_gains_untouched closes _ (0, 0) Hseed). cbn [fst].
  assert (Hlosses : 0 < snd (fold_left (seed_step closes) (seed_indices period) (0, 0))).
  { apply seed_losses_grow; [exact Hseed | | cbn; lra].
    unfold seed_indices. destruct period; [lia|]. discriminate. }
  set (seeded := fold_left (seed_step closes) (seed_indices period) (0, 0)) in *.
  destruct (smooth_falling closes period (smooth_indices closes period)
              (0 / of_nat period, snd seeded / of_nat period) Hp Hsmooth)
    as [HG HL].
  { cbn [fst]. unfold Qdiv. ring. }
  { cbn [snd]. apply Qlt_shift_div_l; [exact Hpos | lra]. }
  set (smoothed := fold_left (smooth_step closes period) _ _) in *.
  destruct (Qeq_bool (snd smoothed) 0) eqn:E.
  - apply Qeq_bool_iff in E. lra.
  - rewrite HG. field. lra.
Qed.

Lemma calculateRSI_strictly_decreasing_witness :
  calculateRSI [13; 8; 5; 3; 2; 1; (1 # 2); (1 # 3)] 6 == 0.
Proof.
  apply (calculateRSI_strictly_decreasing [13; 8; 5; 3; 2; 1; (1 # 2); (1 # 3)] 6).
  - repeat constructor; unfold Qlt; simpl; lia.
  - lia.
  - simpl. lia.
Defined.
End RSIFalling.

(** ** The kline cache *)

Section KlineCacheFacts.
Import Client Freshness.

(** What one call does when the cache cannot serve it. *)
Lemma fetchKlines_miss cfg ex symbol interval limit w :
  kline_miss cfg (now_at ex (ticks w)) w symbol interval ->
  fetchKlines cfg ex symbol interval limit w =
  let asked := log_request symbol interval
                 (snd (Date_now ex (log_call symbol interval w))) in
  match klines_response ex (S (ticks w)) symbol interval limit with
  | Some closePrices =>
      (closePrices,
       set_klines (<[cacheKey symbol interval :=
                      {| data := closePrices; timestamp := now_at ex (ticks w) |}]>
                     (cache_klines w)) asked)
  | None => ([], asked)
  end.
Proof.
  intros Hmiss. unfold fetchKlines. cbn.
  destruct (cache_klines w !! cacheKey symbol interval) as [entry|] eqn:E.
  - specialize (Hmiss entry E).
    destruct (Z.ltb_spec (now_at ex (ticks w) - timestamp entry) (cacheTTL cfg)); [lia|].
    reflexivity.
  - reflexivity.
Qed.

(** What one call does when the cache holds a young enough entry. *)
Lemma fetchKlines_hit cfg ex symbol interval limit w entry :
  cache_klines w !! cacheKey symbol interval = Some entry ->
  (now_at ex (ticks w) - timestamp entry < cacheTTL cfg)%Z ->
  fetchKlines cfg ex symbol interval limit w =
  (data entry, snd (Date_now ex (log_call symbol interval w))).
Proof.
  intros E Hfresh. unfold fetchKlines. cbn. rewrite E.
  destruct (Z.ltb_spec (now_at ex (ticks w) - timestamp entry) (cacheTTL cfg)); [|lia].
  reflexivity.
Qed.

(** X2. A series that had to be requested and was answered is stored with
    the clock reading of the call.  The next call for the same symbol
    and interval is served from the cache, without a request and
    whatever lookback it asks for, when the clock has advanced by less
    than [cacheTTL]; from [cacheTTL] on it goes to the exchange again. *)
Theorem fetchKlines_round_trip
        (cfg : Config) (ex : Exchange) (symbol interval : string)
        (limit limit' : nat) (w : World) (closes : list Q) :
  let t1 := now_at ex (ticks w) in
  let t2 := now_at ex (S (ticks w)) in
  kline_miss cfg t1 w symbol interval ->
  klines_response ex (S (ticks w)) symbol interval limit = Some closes ->
  let first := fetchKlines cfg ex symbol interval limit w in
  let second := fetchKlines cfg ex symbol interval limit' (snd first) in
  fst first = closes
  /\ requests (snd first) = requests w ++ [(symbol, interval)]
  /\ ((t2 - t1 < cacheTTL cfg)%Z ->
      fst second = closes
      /\ requests (snd second) = requests (snd first)
      /\ cache_klines (snd second) = cache_klines (snd first))
  /\ ((cacheTTL cfg <= t2 - t1)%Z ->
      fst second
      = default [] (klines_response ex (S (S (ticks w))) symbol interval limit')
      /\ requests (snd second) = requests (snd first) ++ [(symbol, interval)]).
Proof.
  intros t1 t2 Hmiss Hanswer first second.
  assert (Hfirst : first =
            (closes,
             set_klines (<[cacheKey symbol interval := {| data := closes; timestamp := t1 |}]>
                           (cache_klines w))
               (log_request symbol interval
                  (snd (Date_now ex (log_call symbol interval w)))))).
  { unfold first. rewrite (fetchKlines_miss _ _ _ _ _ _ Hmiss). cbv zeta.
    rewrite Hanswer. reflexivity. }
  split; [rewrite Hfirst; reflexivity|].
  split; [rewrite Hfirst; reflexivity|].
  assert (Hentry : cache_klines (snd first) !! cacheKey symbol interval
                   = Some {| data := closes; timestamp := t1 |}).
  { rewrite Hfirst. cbn. apply lookup_insert_eq. }
  assert (Hticks : ticks (snd first) = S (ticks w)) by (rewrite Hfirst; reflexivity).
  split.
  - intros Hyoung. unfold second.
    rewrite (fetchKlines_hit cfg ex symbol interval limit' (snd first) _ Hentry)
      by (rewrite Hticks; exact Hyoung).
    cbn. auto.
  - intros Hold. unfold second.
    rewrite (fetchKlines_miss cfg ex symbol interval limit' (snd first)).
    + cbv zeta. rewrite Hticks.
      destruct (klines_response ex (S (S (ticks w))) symbol interval limit');
        cbn; auto.
    + intros entry E. rewrite Hentry in E. injection E as <-.
      rewrite Hticks. exact Hold.
Qed.

Lemma fetchKlines_round_trip_witness :
  let first := fetchKlines CONFIG Scenario.exchange "AUSDT" "1h" 35 initial_world in
  let second := fetchKlines CONFIG Scenario.exchange "AUSDT" "1h" 499 (snd first) in
  fst second = Scenario.rising /\ requests (snd second) = requests (snd first).
Proof.
  cbv zeta.
  destruct (fetchKlines_round_trip CONFIG Scenario.exchange "AUSDT" "1h" 35 499
              initial_world Scenario.rising) as (_ & _ & Hyoung & _).
  - intros entry E. vm_compute in E. discriminate.
  - reflexivity.
  - destruct Hyoung as (Hdata & Hreq & _); [vm_compute; reflexivity|].
    split; [exact Hdata | exact Hreq].
Defined.

(** X3. A request that fails answers with the empty list, also when a
    stale entry is at hand, and leaves the cache as it was: the failure
    is not remembered, and with no entry for the series the next call
    sends a request again, whatever the clock reads. *)
Theorem fetchKlines_failure_not_cached
        (cfg : Config) (ex : Exchange) (symbol interval : string)
        (limit limit' : nat) (w : World) :
  kline_miss cfg (now_at ex (ticks w)) w symbol interval ->
  klines_response ex (S (ticks w)) symbol interval limit = None ->
  let first := fetchKlines cfg ex symbol interval limit w in
  let second := fetchKlines cfg ex symbol interval limit' (snd first) in
  fst first = []
  /\ cache_klines (snd first) = cache_klines w
  /\ requests (snd first) = requests w ++ [(symbol, interval)]
  /\ (cache_klines w !! cacheKey symbol interval = None ->
      fst second
      = default [] (klines_response ex (S (S (ticks w))) symbol interval limit')
      /\ requests (snd second)
         = requests w ++ [(symbol, interval); (symbol, interval)]).
Proof.
  intros Hmiss Hanswer first second.
  assert (Hfirst : first =
            ([], log_request symbol interval
                   (snd (Date_now ex (log_call symbol interval w))))).
  { unfold first. rewrite (fetchKlines_miss _ _ _ _ _ _ Hmiss). cbv zeta.
    rewrite Hanswer. reflexivity. }
  split; [rewrite Hfirst; reflexivity|].
  split; [rewrite Hfirst; reflexivity|].
  split; [rewrite Hfirst; reflexivity|].
  intros Hnone. unfold second.
  rewrite (fetchKlines_miss cfg ex symbol interval limit' (snd first)).
  - cbv zeta. rewrite Hfirst. cbn.
    destruct (klines_response ex (S (S (ticks w))) symbol interval limit');
      cbn; rewrite <- app_assoc; auto.
  - intros entry E. rewrite Hfirst in E. cbn in E. congruence.
Qed.

Lemma fetchKlines_failure_not_cached_witness :
  let down := {| now_at := fun _ => 1000%Z;
                 klines_response := fun _ _ _ _ => None;
                 products_response := fun _ => ProductsError |} in
  let first := fetchKlines CONFIG down "AUSDT" "1h" 35 initial_world in
  fst first = [] /\ cache_klines (snd first) = ∅.
Proof.
  cbv zeta.
  destruct (fetchKlines_failure_not_cached CONFIG
              {| now_at := fun _ => 1000%Z;
                 klines_response := fun _ _ _ _ => None;
                 products_response := fun _ => ProductsError |}
              "AUSDT" "1h" 35 35 initial_world) as (Hdata & Hcache & _).
  - intros entry E. vm_compute in E. discriminate.
  - reflexivity.
  - split; [exact Hdata | exact Hcache].
Defined.
End KlineCacheFacts.

(** ** The product cache over two calls *)

Section ProductCacheFacts.
Import Client Freshness.

(** What one call does when the cache cannot serve it. *)
Lemma fetchProductData_miss cfg ex w :
  products_miss cfg (now_at ex (ticks w)) w ->
  fetchProductData cfg ex w =
  let w' := snd (Date_now ex w) in
  match products_response ex (S (ticks w)) with
  | ProductsJson true (Some json_data) =>
      (ProductList json_data,
       set_products {| products_data := ProductList json_data;
                       products_timestamp := now_at ex (ticks w) |} w')
  | ProductsJson _ _ => (ProductList [], w')
  | ProductsError => (products_data (cache_products w), w')
  end.
Proof.
  unfold products_miss, fetchProductData. cbn. intros ->.
  destruct (products_response ex (S (ticks w))) as [|[] [json_data|]]; try reflexivity.
  destruct (products_data (cache_products w)); reflexivity.
Qed.

(** X4. A product list that had to be requested and arrived with the
    success flag is stored with the clock reading of the call.  The
    next call returns the stored list without looking at the endpoint
    when the list is not empty and the clock has advanced by less than
    [rankCacheTTL].  An empty stored list, or one that has reached
    [rankCacheTTL], is never served as a hit: the endpoint decides, and
    the stored list comes back only if the request throws. *)
Theorem fetchProductData_round_trip
        (cfg : Config) (ex : Exchange) (w : World) (items : list Rank.Product) :
  let t1 := now_at ex (ticks w) in
  let t2 := now_at ex (S (ticks w)) in
  products_miss cfg t1 w ->
  products_response ex (S (ticks w)) = ProductsJson true (Some items) ->
  let first := fetchProductData cfg ex w in
  let second := fetchProductData cfg ex (snd first) in
  fst first = ProductList items
  /\ cache_products (snd first)
     = {| products_data := ProductList items; products_timestamp := t1 |}
  /\ (items <> [] -> (t2 - t1 < rankCacheTTL cfg)%Z ->
      fst second = ProductList items
      /\ cache_products (snd second) = cache_products (snd first))
  /\ (items = [] \/ (rankCacheTTL cfg <= t2 - t1)%Z ->
      fst second
      = match products_response ex (S (S (ticks w))) with
        | ProductsJson true (Some fresh) => ProductList fresh
        | ProductsJson _ _ => ProductList []
        | ProductsError => ProductList items
        end).
Proof.
  intros t1 t2 Hmiss Hanswer first second.
  assert (Hfirst : first =
            (ProductList items,
             set_products {| products_data := ProductList items;
                             products_timestamp := t1 |} (snd (Date_now ex w)))).
  { unfold first. rewrite (fetchProductData_miss _ _ _ Hmiss). cbv zeta.
    rewrite Hanswer. reflexivity. }
  split; [rewrite Hfirst; reflexivity|].
  split; [rewrite Hfirst; reflexivity|].
  split.
  - intros Hne Hyoung. unfold second. rewrite Hfirst. unfold fetchProductData. cbn.
    destruct items as [|item items]; [congruence|]. cbn.
    destruct (Z.ltb_spec (now_at ex (S (ticks w)) - t1) (rankCacheTTL cfg)); [|unfold t2 in *; lia].
    cbn. auto.
  - intros Hstale. unfold second.
    rewrite (fetchProductData_miss cfg ex (snd first)).
    + cbv zeta. rewrite Hfirst. cbn.
      destruct (products_response ex (S (S (ticks w)))) as [|[] [fresh|]]; reflexivity.
    + unfold products_miss. rewrite Hfirst. cbn.
      destruct Hstale as [->|Hold]; [reflexivity|].
      apply andb_false_iff. right.
      destruct (Z.ltb_spec (now_at ex (S (ticks w)) - t1) (rankCacheTTL cfg)); [unfold t2 in *; lia|].
      reflexivity.
Qed.

Lemma fetchProductData_round_trip_witness :
  let listed := {| now_at := fun _ => 1000%Z;
                   klines_response := fun _ _ _ _ => None;
                   products_response := fun n =>
                     if (n =? 1)%nat then ProductsJson true (Some Scenario.feed)
                     else ProductsError |} in
  let first := fetchProductData CONFIG listed initial_world in
  let second := fetchProductData CONFIG listed (snd first) in
  fst first = ProductList Scenario.feed /\ fst second = ProductList Scenario.feed.
Proof.
  cbv zeta.
  destruct (fetchProductData_round_trip CONFIG
              {| now_at := fun _ => 1000%Z;
                 klines_response := fun _ _ _ _ => None;
                 products_response := fun n =>
                   if (n =? 1)%nat then ProductsJson true (Some Scenario.feed)
                   else ProductsError |}
              initial_world Scenario.feed) as (Hfirst & _ & Hyoung & _).
  - reflexivity.
  - reflexivity.
  - split; [exact Hfirst|].
    apply Hyoung; [discriminate | vm_compute; reflexivity].
Defined.
End ProductCacheFacts.

(** ** The metadata of a cycle *)

Section FeedFacts.
Import Feeds.

(** A map built by [reduce] holds, for a key, the value of the last
    entry with that key. *)
Lemma fold_insert_lookup {A V : Type} (key : A -> string) (value : A -> V)
      (data : list A) (m : gmap string V) k :
  fold_left (fun acc item => <[key item := value item]> acc) data m !! k =
  match list_find (fun item => key item = k) (rev data) with
  | Some (_, item) => Some (value item)
  | None => m !! k
  end.
Proof.
  revert m. induction data as [|x data IH]; intros m; [reflexivity|].
  cbn [fold_left rev]. rewrite IH.
  destruct (list_find (fun item => key item = k) (rev data)) as [[i item]|] eqn:E.
  - erewrite list_find_app_l by exact E. reflexivity.
  - rewrite list_find_app_r by exact E. cbn.
    destruct (decide (key x = k)) as [Heq|Hne]; cbn.
    + rewrite <- Heq. apply lookup_insert_eq.
    + apply lookup_insert_ne. exact Hne.
Qed.

Lemma reduce_to_map_lookup {A V : Type} (key : A -> string) (value : A -> V)
      (data : list A) k :
  reduce_to_map key value data !! k =
  match list_find (fun item => key item = k) (rev data) with
  | Some (_, item) => Some (value item)
  | None => None
  end.
Proof.
  unfold reduce_to_map. rewrite fold_insert_lookup.
  destruct (list_find _ _) as [[? ?]|]; [reflexivity | apply lookup_empty].
Qed.

(** X5. What [fetchExchangeInfo] hands to the scan: the symbols are those
    of the active entries of the payload (quote asset USDT, status
    TRADING), in payload order; [baseMap] has an entry exactly for these
    symbols, and it is the base asset of an active entry with that
    symbol.  So the rank lookup of a symbol of the scan takes its base
    asset from the exchange info, and falls back to cutting [USDT] out
    of the symbol only where the exchange info gives an empty base
    asset.  A failed fetch gives no symbols and an empty map. *)
Theorem fetchExchangeInfo_symbols_and_bases
        (response : option (list SymbolInfo)) (s : string) :
  let exchangeData := fetchExchangeInfo response in
  symbols exchangeData
  = map info_symbol (List.filter is_active (default [] response))
  /\ (In s (symbols exchangeData) <-> is_Some (baseMap exchangeData !! s))
  /\ (forall b, baseMap exchangeData !! s = Some b ->
        (exists data_symbols info,
            response = Some data_symbols /\ In info data_symbols
            /\ info_symbol info = s /\ baseAsset info = b
            /\ quoteAsset info = "USDT" /\ status info = "TRADING")
        /\ (b <> EmptyString -> Rank.baseAssetOf (baseMap exchangeData) s = b))
  /\ (response = None ->
      symbols exchangeData = [] /\ baseMap exchangeData = ∅).
Proof.
  intros exchangeData. unfold exchangeData.
  destruct response as [data_symbols|]; cbn [fetchExchangeInfo symbols baseMap default].
  - split; [reflexivity|].
    set (activeSymbols := List.filter is_active data_symbols).
    assert (Hfind : forall i info,
              list_find (fun item => info_symbol item = s) (rev activeSymbols)
              = Some (i, info) ->
              In info data_symbols /\ is_active info = true /\ info_symbol info = s).
    { intros i info Hf. apply list_find_Some in Hf as (Hl & Hs & _).
      apply list_elem_of_lookup_2, list_elem_of_In in Hl.
      apply in_rev in Hl. apply filter_In in Hl as [Hin Hact]. auto. }
    split; [|split].
    + rewrite reduce_to_map_lookup. split.
      * intros Hin. apply in_map_iff in Hin as (info & Hs & Hin).
        destruct (list_find (fun item => info_symbol item = s) (rev activeSymbols))
          as [[i found]|] eqn:E; [eauto|].
        exfalso. rewrite list_find_None in E. rewrite Forall_forall in E.
        apply (E info); [|exact Hs].
        apply list_elem_of_In. apply -> in_rev. exact Hin.
      * intros [b Hb].
        destruct (list_find (fun item => info_symbol item = s) (rev activeSymbols))
          as [[i found]|] eqn:E; [|discriminate].
        apply list_find_Some in E as (Hl & Hs & _).
        apply list_elem_of_lookup_2, list_elem_of_In in Hl. apply in_rev in Hl.
        apply in_map_iff. eauto.
    + intros b Hb. split.
      * rewrite reduce_to_map_lookup in Hb.
        destruct (list_find (fun item => info_symbol item = s) (rev activeSymbols))
          as [[i found]|] eqn:E; [|discriminate].
        injection Hb as <-.
        destruct (Hfind i found eq_refl) as (Hin & Hact & Hs).
        unfold is_active in Hact. apply andb_true_iff in Hact as [Hq Hst].
        apply String.eqb_eq in Hq, Hst.
        exists data_symbols, found. auto 10.
      * intros Hne. unfold Rank.baseAssetOf. rewrite Hb.
        destruct b; [congruence | reflexivity].
    + discriminate.
  - split; [reflexivity|]. split; [|split].
    + split; [intros [] | intros [b Hb]; rewrite lookup_empty in Hb; discriminate].
    + intros b Hb. rewrite lookup_empty in Hb. discriminate.
    + auto.
Qed.
End FeedFacts.

(** ** Ranks over the map the script builds *)

Section RankRange.
Import Rank.

Lemma buildRankMap_position feed b r :
  buildRankMap feed !! b = Some r ->
  (1 <= r <= length (mcapList feed))%nat
  /\ exists e, sorted_mcapList feed !! (r - 1)%nat = Some e /\ base e = b.
Proof.
  rewrite buildRankMap_lookup.
  destruct (list_find _ _) as [[i e]|] eqn:Hfind; intros [= <-].
  apply list_find_Some in Hfind as (Hi & Hb & _).
  pose proof (lookup_lt_Some _ _ _ Hi) as Hlt.
  rewrite (Permutation_length (sorted_mcapList_Permutation feed)) in Hlt.
  split; [lia|].
  exists e. replace (i + 1 - 1)%nat with i by lia. auto.
Qed.

(** X6. In the rank map of a product feed every rank lies between 1 and
    the number of qualifying entries of the feed, and no two base assets
    have the same rank. *)
Theorem buildRankMap_ranks_distinct (feed : list Product) (b : string) (r : nat) :
  buildRankMap feed !! b = Some r ->
  (1 <= r <= length (mcapList feed))%nat
  /\ forall b', buildRankMap feed !! b' = Some r -> b' = b.
Proof.
  intros Hb. destruct (buildRankMap_position feed b r Hb) as (Hrange & e & He & Hbase).
  split; [exact Hrange|].
  intros b' Hb'. destruct (buildRankMap_position feed b' r Hb') as (_ & e' & He' & Hbase').
  congruence.
Qed.

Lemma buildRankMap_ranks_distinct_witness :
  (1 <= 2 <= length (mcapList Scenario.feed))%nat.
Proof.
  apply (buildRankMap_ranks_distinct Scenario.feed "ETH" 2). vm_compute. reflexivity.
Defined.

End RankRange.

(** ** The candidate list *)

Section CandidateFacts.
Import Num Scanner.

Lemma by_change_desc_key (stats : gmap string Client.Ticker) a b :
  (Client.change_of stats b - Client.change_of stats a <= 0)%Q
  <-> (Client.change_of stats b <= Client.change_of stats a)%Q.
Proof. split; intros H; lra. Qed.

(** X8. The candidate list of a cycle: the symbols of the exchange info
    whose 24h quote volume is at least [minVolume], each as often as the
    exchange info lists it, in descending order of 24h price change.  A
    symbol the ticker does not list counts with volume 0 and change 0. *)
Theorem highVolumeSymbols_filtered_by_change (cfg : Client.Config) (meta : Metadata) :
  Permutation (highVolumeSymbols cfg meta)
              (List.filter
                 (fun s => Qle_bool (Client.minVolume cfg) (Client.volume_of (stats meta) s))
                 (symbols meta))
  /\ (forall s, In s (highVolumeSymbols cfg meta)
                <-> In s (symbols meta)
                    /\ (Client.minVolume cfg <= Client.volume_of (stats meta) s)%Q)
  /\ StronglySorted (JS.key_desc (Client.change_of (stats meta)))
                    (highVolumeSymbols cfg meta)
  /\ (forall s, stats meta !! s = None ->
                Client.volume_of (stats meta) s = 0%Q
                /\ Client.change_of (stats meta) s = 0%Q).
Proof.
  assert (Hperm : Permutation (highVolumeSymbols cfg meta)
              (List.filter
                 (fun s => Qle_bool (Client.minVolume cfg) (Client.volume_of (stats meta) s))
                 (symbols meta))) by apply sort_Permutation.
  split; [exact Hperm|]. split; [|split].
  - intros s. split.
    + intros Hin. apply (Permutation_in _ Hperm) in Hin.
      apply filter_In in Hin as [Hin Hvol]. apply Qle_bool_iff in Hvol. auto.
    + intros [Hin Hvol]. apply (Permutation_in _ (Permutation_sym Hperm)).
      apply filter_In. split; [exact Hin | apply Qle_bool_iff, Hvol].
  - apply (sort_StronglySorted (Client.change_of (stats meta))).
    intros a b. apply by_change_desc_key.
  - intros s Hs. unfold Client.volume_of, Client.change_of. rewrite Hs. auto.
Qed.

(** A sort whose comparator never asks for a swap leaves the list as it is. *)
Lemma sort_no_swap {A : Type} (comparator : A -> A -> Q) (l : list A) :
  (forall a b, (comparator a b <= 0)%Q) -> JS.sort comparator l = l.
Proof.
  intros H. induction l as [|x l IH]; [reflexivity|].
  simpl. rewrite IH. destruct l as [|y l]; [reflexivity|].
  simpl. assert (E : Qle_bool (comparator x y) 0 = true) by (apply Qle_bool_iff, H).
  rewrite E. reflexivity.
Qed.

Lemma filter_none {A : Type} (f : A -> bool) (l : list A) :
  (forall x, In x l -> f x = false) -> List.filter f l = [].
Proof.
  induction l as [|x l IH]; intros H; [reflexivity|].
  simpl. rewrite (H x (or_introl eq_refl)). apply IH. intros y Hy. apply H. now right.
Qed.

(** X9. When the ticker fetch fails the scan goes on with an empty
    [stats]: with a volume floor of at most 0 every symbol of the
    exchange info is a candidate, in the order of the exchange info;
    with a positive floor there is no candidate at all. *)
Theorem gatherMetadata_ticker_failure
        (cfg : Client.Config) (ex : Client.Exchange)
        (responses : Cycle.Responses) (w : Client.World) :
  Cycle.ticker24hr responses = None ->
  let meta := fst (Cycle.gatherMetadata cfg ex responses w) in
  stats meta = ∅
  /\ symbols meta = Feeds.symbols (Feeds.fetchExchangeInfo (Cycle.exchangeInfo responses))
  /\ ((Client.minVolume cfg <= 0)%Q -> highVolumeSymbols cfg meta = symbols meta)
  /\ ((0 < Client.minVolume cfg)%Q -> highVolumeSymbols cfg meta = []).
Proof.
  intros Hticker meta.
  assert (Hstats : stats meta = ∅).
  { unfold meta, Cycle.gatherMetadata.
    destruct (Client.fetchProductData _ _ _) as [products w']. cbn.
    rewrite Hticker. reflexivity. }
  split; [exact Hstats|]. split.
  { unfold meta, Cycle.gatherMetadata.
    destruct (Client.fetchProductData _ _ _) as [products w']. reflexivity. }
  assert (Hvol : forall s, Client.volume_of (stats meta) s = 0%Q).
  { intros s. unfold Client.volume_of. rewrite Hstats, lookup_empty. reflexivity. }
  assert (Hchange : forall s, Client.change_of (stats meta) s = 0%Q).
  { intros s. unfold Client.change_of. rewrite Hstats, lookup_empty. reflexivity. }
  split.
  - intros Hfloor. unfold highVolumeSymbols.
    rewrite filter_all.
    + apply sort_no_swap. intros a b. rewrite !Hchange. lra.
    + intros s _. rewrite Hvol. apply Qle_bool_iff, Hfloor.
  - intros Hfloor. unfold highVolumeSymbols.
    rewrite filter_none; [reflexivity|].
    intros s _. rewrite Hvol.
    destruct (Qle_bool (Client.minVolume cfg) 0) eqn:E; [|reflexivity].
    apply Qle_bool_iff in E. lra.
Qed.

Lemma gatherMetadata_ticker_failure_witness :
  let listed := Some [{| Feeds.info_symbol := "BUSDT"; Feeds.baseAsset := "B";
                         Feeds.quoteAsset := "USDT"; Feeds.status := "TRADING" |};
                      {| Feeds.info_symbol := "ABTC"; Feeds.baseAsset := "A";
                         Feeds.quoteAsset := "BTC"; Feeds.status := "TRADING" |};
                      {| Feeds.info_symbol := "AUSDT"; Feeds.baseAsset := "A";
                         Feeds.quoteAsset := "USDT"; Feeds.status := "TRADING" |}] in
  let responses := {| Cycle.exchangeInfo := listed; Cycle.ticker24hr := None;
                      Cycle.premiumIndex := None; Cycle.fundingInfo := None |} in
  highVolumeSymbols Client.CONFIG
    (fst (Cycle.gatherMetadata Client.CONFIG Scenario.exchange responses
            Client.initial_world))
  = ["BUSDT"; "AUSDT"].
Proof.
  cbv zeta.
  destruct (gatherMetadata_ticker_failure Client.CONFIG Scenario.exchange
              {| Cycle.exchangeInfo :=
                   Some [{| Feeds.info_symbol := "BUSDT"; Feeds.baseAsset := "B";
                            Feeds.quoteAsset := "USDT"; Feeds.status := "TRADING" |};
                         {| Feeds.info_symbol := "ABTC"; Feeds.baseAsset := "A";
                            Feeds.quoteAsset := "BTC"; Feeds.status := "TRADING" |};
                         {| Feeds.info_symbol := "AUSDT"; Feeds.baseAsset := "A";
                            Feeds.quoteAsset := "USDT"; Feeds.status := "TRADING" |}];
                 Cycle.ticker24hr := None;
                 Cycle.premiumIndex := None; Cycle.fundingInfo := None |}
              Client.initial_world eq_refl) as (_ & Hsymbols & Hall & _).
  rewrite Hall by (vm_compute; discriminate).
  rewrite Hsymbols. reflexivity.
Defined.
End CandidateFacts.

(** ** How a cycle can end *)

Section CycleOutcomes.
Import Client Scanner.

Lemma fetchProductData_EmptyObject cfg ex w :
  fst (fetchProductData cfg ex w) = EmptyObject
  <-> products_data (cache_products w) = EmptyObject
      /\ products_response ex (S (ticks w)) = ProductsError.
Proof.
  unfold fetchProductData. cbn.
  destruct (products_data (cache_products w)) as [|items] eqn:Hdata; cbn.
  - destruct (products_response ex (S (ticks w))) as [|[] [json_data|]]; cbn.
    all: rewrite ?Hdata.
    all: split; [intros H | intros [H1 H2]]; try discriminate; auto.
  - match goal with |- context [if ?c then _ else _] => destruct c end;
      cbn; rewrite ?Hdata.
    + split; [intros H | intros [H1 H2]]; discriminate.
    + destruct (products_response ex (S (ticks w))) as [|[] [json_data|]]; cbn;
      rewrite ?Hdata; (split; [intros H | intros [H1 H2]]; discriminate).
Qed.

Lemma gatherMetadata_productList cfg ex responses w :
  productList (fst (Cycle.gatherMetadata cfg ex responses w))
  = fst (fetchProductData cfg ex
           (Feeds.noCache ex (Feeds.noCache ex (Feeds.noCache ex (Feeds.noCache ex w))))).
Proof.
  unfold Cycle.gatherMetadata.
  destruct (fetchProductData _ _ _) as [products w']. reflexivity.
Qed.

Lemma updateData_MainLoopError {W : Type} cfg (client : DataClient W) meta w schedule :
  updateData cfg client meta w schedule = MainLoopError
  <-> productList meta = EmptyObject.
Proof.
  unfold updateData. destruct (productList meta) as [|items].
  - tauto.
  - destruct (all_settled _); split; discriminate.
Qed.


Lemma run_no_workers {W : Type} (client : DataClient W) process TARGET_SYMBOLS
      schedule (p : Pool W) :
  workers p = [] -> run_schedule client process TARGET_SYMBOLS schedule p = p.
Proof.
  intros Hnone. induction schedule as [|i rest IH]; [reflexivity|].
  simpl. unfold worker at 1. rewrite Hnone. cbn. exact IH.
Qed.

(** X11. With no worker to start, because [concurrency] is 0 or because
    there is no candidate, the table is rendered empty: no symbol is
    evaluated and the data client gets no call, whatever the symbols
    would have read. *)
Theorem updateData_without_workers
        {W : Type} (cfg : Config) (client : DataClient W) (meta : Metadata)
        (items : list Rank.Product) (w : W) (schedule : list nat) :
  productList meta = ProductList items ->
  Nat.min (concurrency cfg) (length (highVolumeSymbols cfg meta)) = 0%nat ->
  updateData cfg client meta w schedule = Rendered []
  /\ world (run_schedule client (processSymbol cfg meta (Rank.buildRankMap items))
              (highVolumeSymbols cfg meta) schedule
              (start_workers (highVolumeSymbols cfg meta) (concurrency cfg) w)) = w.
Proof.
  intros Hlist Hnone. unfold updateData. rewrite Hlist.
  rewrite run_no_workers.
  - unfold all_settled, start_workers, total. cbn. rewrite Hnone. cbn. auto.
  - unfold start_workers, total. cbn. rewrite Hnone. reflexivity.
Qed.

Lemma updateData_without_workers_witness :
  let cfg := {| minVolume := 0; rsiLimit := 35; concurrency := 0;
                cacheTTL := 60000; rankCacheTTL := 3600000 |} in
  updateData cfg Scenario.client Scenario.meta tt Scenario.round_robin = Rendered [].
Proof.
  cbv zeta.
  apply (updateData_without_workers
           {| minVolume := 0; rsiLimit := 35; concurrency := 0;
              cacheTTL := 60000; rankCacheTTL := 3600000 |}
           Scenario.client Scenario.meta [] tt Scenario.round_robin);
    reflexivity.
Defined.

(** X12. When the exchange-info fetch fails the cycle has no symbol to
    scan and starts no worker: it ends at once, with an empty table or,
    if the product list is not to be had, in the main [catch]. *)
Theorem updateData_exchange_info_failure
        (cfg : Config) (ex : Exchange) (responses : Cycle.Responses) (w : World)
        (schedule : list nat) :
  Cycle.exchangeInfo responses = None ->
  Cycle.updateData cfg ex responses w schedule = Rendered []
  \/ Cycle.updateData cfg ex responses w schedule = MainLoopError.
Proof.
  intros Hinfo. unfold Cycle.updateData.
  assert (Hsymbols : symbols (fst (Cycle.gatherMetadata cfg ex responses w)) = []).
  { unfold Cycle.gatherMetadata.
    destruct (fetchProductData _ _ _) as [products w']. cbn.
    rewrite Hinfo. reflexivity. }
  destruct (Cycle.gatherMetadata cfg ex responses w) as [meta w'].
  cbn [fst] in Hsymbols.
  destruct (productList meta) as [|items] eqn:Hlist.
  - right. apply updateData_MainLoopError. exact Hlist.
  - left. unfold updateData. rewrite Hlist.
    assert (Hnone : highVolumeSymbols cfg meta = []).
    { unfold highVolumeSymbols. rewrite Hsymbols. reflexivity. }
    rewrite Hnone, run_no_workers.
    + unfold all_settled, start_workers, total. cbn.
      rewrite Nat.min_0_r. reflexivity.
    + unfold start_workers, total. cbn. rewrite Nat.min_0_r. reflexivity.
Qed.

Lemma updateData_exchange_info_failure_witness :
  let responses := {| Cycle.exchangeInfo := None; Cycle.ticker24hr := None;
                      Cycle.premiumIndex := None; Cycle.fundingInfo := None |} in
  Cycle.updateData CONFIG Scenario.exchange responses initial_world [] = Rendered []
  \/ Cycle.updateData CONFIG Scenario.exchange responses initial_world [] = MainLoopError.
Proof.
  cbv zeta.
  apply (updateData_exchange_info_failure CONFIG Scenario.exchange
           {| Cycle.exchangeInfo := None; Cycle.ticker24hr := None;
              Cycle.premiumIndex := None; Cycle.fundingInfo := None |}
           initial_world []).
  reflexivity.
Defined.
End CycleOutcomes.

(** ** The pool under any data client *)

Section PoolAnyClient.
Import Scanner Trace.
Context {W : Type}.
Variable client : DataClient W.
Variable process : string -> Task (option ScanResult).
Variable TARGET_SYMBOLS : list string.

Local Abbreviation step := (worker client process TARGET_SYMBOLS).
Local Abbreviation run := (run_schedule client process TARGET_SYMBOLS).

Lemma insert_split {A : Type} (l : list A) i x y :
  l !! i = Some x ->
  exists before after, l = before ++ x :: after /\ <[i := y]> l = before ++ y :: after.
Proof.
  intros Hi. exists (take i l), (drop (S i) l). split.
  - symmetry. apply take_drop_middle. exact Hi.
  - apply insert_take_drop. eapply lookup_lt_Some. exact Hi.
Qed.

Lemma running_insert (ws : list WorkerState) i s s' :
  ws !! i = Some s ->
  (running (<[i := s']> ws) + (if is_running s then 1 else 0)
   = running ws + (if is_running s' then 1 else 0))%nat.
Proof.
  intros Hi. destruct (insert_split ws i s s' Hi) as (before & after & Hold & Hnew).
  rewrite Hnew. rewrite Hold at 1. unfold running.
  rewrite !List.filter_app, !length_app. cbn [List.filter].
  destruct (is_running s), (is_running s'); cbn [length]; lia.
Qed.

Lemma running_le_length (ws : list WorkerState) : (running ws <= length ws)%nat.
Proof.
  unfold running. induction ws as [|s ws IH]; [reflexivity|].
  cbn. destruct (is_running s); cbn; lia.
Qed.

Lemma running_replicate_idle n : running (replicate n AtLoopTest) = 0%nat.
Proof. unfold running. induction n as [|n IH]; [reflexivity | exact IH]. Qed.

(** What every stretch of every worker keeps true of the shared
    variables, whatever the data client answers. *)
Lemma step_cursor i (p p' : Pool W) :
  step i p = Some p' ->
  (index p <= total TARGET_SYMBOLS)%nat
  /\ assigned p = seq 0 (index p)
  /\ (completed p + running (workers p) = index p)%nat
  /\ (length (results p) <= completed p)%nat ->
  (index p' <= total TARGET_SYMBOLS)%nat
  /\ assigned p' = seq 0 (index p')
  /\ (completed p' + running (workers p') = index p')%nat
  /\ (length (results p') <= completed p')%nat.
Proof.
  intros Hstep (Hidx & Has & Hcomp & Hres). unfold worker in Hstep.
  destruct (workers p !! i) as [s|] eqn:Hi; [|discriminate].
  destruct s as [|[result|sym itv limit k]|]; [| | |discriminate].
  - destruct (Nat.ltb_spec (index p) (total TARGET_SYMBOLS)) as [Hlt|Hge].
    + destruct (TARGET_SYMBOLS !! index p) as [sym|] eqn:Hsym; [|discriminate].
      injection Hstep as <-. cbn [world index completed results workers assigned].
      pose proof (running_insert _ i _ (InProcessSymbol (process sym)) Hi) as Hrun.
      cbn [is_running] in Hrun.
      split; [lia|]. split; [rewrite Has, seq_S; reflexivity|]. split; lia.
    + injection Hstep as <-. cbn [world index completed results workers assigned].
      pose proof (running_insert _ i _ Terminated Hi) as Hrun.
      cbn [is_running] in Hrun.
      split; [lia|]. split; [exact Has|]. split; lia.
  - injection Hstep as <-. cbn [world index completed results workers assigned].
    pose proof (running_insert _ i _ AtLoopTest Hi) as Hrun.
    cbn [is_running] in Hrun.
    split; [lia|]. split; [exact Has|]. split; [lia|].
    destruct result as [r|]; [rewrite length_app; cbn; lia | lia].
  - destruct (client sym itv limit (world p)) as [closes w'].
    injection Hstep as <-. cbn [world index completed results workers assigned].
    pose proof (running_insert _ i _ (InProcessSymbol (k closes)) Hi) as Hrun.
    cbn [is_running] in Hrun.
    split; [lia|]. split; [exact Has|]. split; lia.
Qed.

Lemma run_cursor schedule (p : Pool W) :
  (index p <= total TARGET_SYMBOLS)%nat
  /\ assigned p = seq 0 (index p)
  /\ (completed p + running (workers p) = index p)%nat
  /\ (length (results p) <= completed p)%nat ->
  (index (run schedule p) <= total TARGET_SYMBOLS)%nat
  /\ assigned (run schedule p) = seq 0 (index (run schedule p))
  /\ (completed (run schedule p) + running (workers (run schedule p))
      = index (run schedule p))%nat
  /\ (length (results (run schedule p)) <= completed (run schedule p))%nat.
Proof.
  revert p. induction schedule as [|i rest IH]; intros p Hp; [exact Hp|].
  cbn [run_schedule]. apply IH.
  destruct (step i p) as [p'|] eqn:E; cbn [default]; [|exact Hp].
  eapply step_cursor; eassumption.
Qed.

(** Results only come out of [processSymbol]. *)
Lemma step_returns_only (P : ScanResult -> Prop) i (p p' : Pool W) :
  (forall sym, In sym TARGET_SYMBOLS -> returns_only P (process sym)) ->
  step i p = Some p' ->
  Forall P (results p) /\ Forall (worker_returns_only P) (workers p) ->
  Forall P (results p') /\ Forall (worker_returns_only P) (workers p').
Proof.
  intros Hprocess Hstep [Hres Hws]. unfold worker in Hstep.
  destruct (workers p !! i) as [s|] eqn:Hi; [|discriminate].
  assert (Hs : worker_returns_only P s).
  { rewrite Forall_lookup in Hws. exact (Hws i s Hi). }
  destruct s as [|[result|sym itv limit k]|]; [| | |discriminate].
  - destruct (index p <? total TARGET_SYMBOLS)%nat.
    + destruct (TARGET_SYMBOLS !! index p) as [sym|] eqn:Hsym; [|discriminate].
      injection Hstep as <-. cbn [results workers].
      split; [exact Hres|]. apply Forall_insert; [exact Hws|].
      apply Hprocess. apply list_elem_of_In. eapply list_elem_of_lookup_2. exact Hsym.
    + injection Hstep as <-. cbn [results workers].
      split; [exact Hres|]. apply Forall_insert; [exact Hws | exact I].
  - injection Hstep as <-. cbn [results workers]. split.
    + destruct result as [r|]; [|exact Hres].
      apply Forall_app. split; [exact Hres|]. constructor; [exact Hs | constructor].
    + apply Forall_insert; [exact Hws | exact I].
  - destruct (client sym itv limit (world p)) as [closes w'].
    injection Hstep as <-. cbn [results workers].
    split; [exact Hres|]. apply Forall_insert; [exact Hws|]. apply Hs.
Qed.

Lemma run_returns_only_from (P : ScanResult -> Prop) schedule (p : Pool W) :
  (forall sym, In sym TARGET_SYMBOLS -> returns_only P (process sym)) ->
  Forall P (results p) /\ Forall (worker_returns_only P) (workers p) ->
  Forall P (results (run schedule p))
  /\ Forall (worker_returns_only P) (workers (run schedule p)).
Proof.
  intros Hprocess. revert p.
  induction schedule as [|i rest IH]; intros p Hp; [exact Hp|].
  cbn [run_schedule]. apply IH.
  destruct (step i p) as [p'|] eqn:E; cbn [default]; [|exact Hp].
  eapply step_returns_only; eassumption.
Qed.

Lemma run_returns_only (P : ScanResult -> Prop) CONCURRENCY w schedule :
  (forall sym, In sym TARGET_SYMBOLS -> returns_only P (process sym)) ->
  Forall P (results (run schedule (start_workers TARGET_SYMBOLS CONCURRENCY w))).
Proof.
  intros Hprocess. apply run_returns_only_from; [exact Hprocess|].
  cbn. split; [constructor|]. apply Forall_forall. intros s Hs.
  apply elem_of_replicate in Hs as [-> _]. exact I.
Qed.
End PoolAnyClient.

Section BoundedConcurrency.
Import Scanner Trace.

(** X13. Whatever the data client answers and in whatever order the
    workers are resumed, the pool never has more than
    [min(CONCURRENCY, total)] symbols in evaluation; the cursor has
    handed out the indices below it, once each and in order, and never
    passes the end of the list; every symbol handed out is completed or
    in evaluation; and no more results are held than symbols are
    completed. *)
Theorem pool_bounded_concurrency
        {W : Type} (client : DataClient W)
        (process : string -> Task (option ScanResult))
        (TARGET_SYMBOLS : list string) (CONCURRENCY : nat) (w : W)
        (schedule : list nat) :
  let p := run_schedule client process TARGET_SYMBOLS schedule
             (start_workers TARGET_SYMBOLS CONCURRENCY w) in
  (running (workers p) <= Nat.min CONCURRENCY (total TARGET_SYMBOLS))%nat
  /\ (index p <= total TARGET_SYMBOLS)%nat
  /\ assigned p = seq 0 (index p)
  /\ (completed p + running (workers p) = index p)%nat
  /\ (length (results p) <= completed p)%nat.
Proof.
  intros p. split.
  - pose proof (running_le_length (workers p)) as Hle. unfold p in *.
    rewrite run_length in Hle. cbn in Hle. rewrite length_replicate in Hle. exact Hle.
  - apply run_cursor. unfold start_workers.
    cbn [index assigned completed results workers].
    rewrite running_replicate_idle. cbn. repeat split; lia.
Qed.
End BoundedConcurrency.

(** ** The rows of the table *)

Section RowFacts.
Import Num Scanner Trace Fields.
Local Open Scope Q_scope.

Lemma processSymbol_returns cfg meta rankMap sym :
  returns_only (fun r => symbol r = sym /\ filled_in meta rankMap r)
               (processSymbol cfg meta rankMap sym).
Proof.
  unfold processSymbol. cbn. intros k1h.
  destruct (Qlt_bool (RSI.calculateRSI k1h 6) 90) eqn:E1; [exact I|].
  cbn. intros k4h.
  destruct (Qlt_bool (RSI.calculateRSI k4h 6) 80) eqn:E4; [exact I|].
  cbn. apply Qlt_bool_false_iff in E1, E4.
  pose proof (calculateRSI_bounds k1h 6 ltac:(lia)) as [_ H1].
  pose proof (calculateRSI_bounds k4h 6 ltac:(lia)) as [_ H4].
  unfold filled_in. cbn. repeat split; assumption.
Qed.

Lemma lookup_or_8_nonzero (m : gmap string Q) sym : ~ lookup_or m sym 8 == 0.
Proof.
  unfold lookup_or, or_default. destruct (m !! sym) as [v|].
  - destruct (Qeq_bool v 0) eqn:E.
    + unfold Qeq. cbn. lia.
    + apply Qeq_bool_neq. exact E.
  - unfold Qeq. cbn. lia.
Qed.

Lemma rendered_matches {W : Type} cfg (client : DataClient W) meta items w schedule matches :
  productList meta = Client.ProductList items ->
  updateData cfg client meta w schedule = Rendered matches ->
  Forall (fun r => In (symbol r) (highVolumeSymbols cfg meta)
                   /\ filled_in meta (Rank.buildRankMap items) r) matches.
Proof.
  intros Hlist. unfold updateData. rewrite Hlist.
  destruct (all_settled _); [|discriminate]. intros [= <-].
  apply Forall_forall. intros r Hr. apply list_elem_of_In in Hr.
  apply (Permutation_in _ (sort_Permutation by_volume_desc _)) in Hr.
  pose proof (run_returns_only client
                (processSymbol cfg meta (Rank.buildRankMap items))
                (highVolumeSymbols cfg meta)
                (fun r => In (symbol r) (highVolumeSymbols cfg meta)
                          /\ filled_in meta (Rank.buildRankMap items) r)
                (Client.concurrency cfg) w schedule) as Hall.
  rewrite Forall_forall in Hall. apply Hall; [|apply list_elem_of_In, Hr].
  intros sym Hsym.
  pose proof (processSymbol_returns cfg meta (Rank.buildRankMap items) sym) as Hret.
  revert Hret. generalize (processSymbol cfg meta (Rank.buildRankMap items) sym).
  induction t as [[r'|]|s i l k IH]; cbn.
  - intros [<- Hf]. auto.
  - auto.
  - intros Hk closes. apply IH, Hk.
Qed.



Lemma annualized_sign f i : 0 < i -> (0 < f * (24 / i) * 365 * 100 <-> 0 < f).
Proof.
  intros Hi.
  assert (Hc : 0 < 24 / i * 365 * 100).
  { assert (0 < 24 / i) by (apply Qlt_shift_div_l; [exact Hi | lra]).
    assert (0 < 24 / i * 365) by (apply Qmult_lt_0_compat; [assumption | lra]).
    apply Qmult_lt_0_compat; [assumption | lra]. }
  set (c := 24 / i * 365 * 100) in *.
  assert (Heq : f * (24 / i) * 365 * 100 == f * c) by (unfold c; ring).
  rewrite Heq. split.
  - intros H. destruct (Qlt_le_dec 0 f) as [|Hle]; [assumption|].
    exfalso. assert (f * c <= 0 * c) by (apply Qmult_le_compat_r; lra). lra.
  - intros H. apply Qmult_lt_0_compat; assumption.
Qed.


End RowFacts.

(** ** The calls of a scan *)

Section CallVolume.
Import Scanner Trace.
Context {W : Type}.
Variable client : DataClient W.
Variable log : W -> list (string * string).
Variable asked : string -> string -> nat -> Prop.
Variable dataset : string -> string -> nat -> list Q.
Variable valid : W -> Prop.
Variable process : string -> Task (option ScanResult).
Variable TARGET_SYMBOLS : list string.
Variable log0 : list (string * string).

Hypothesis client_deterministic : Deterministic asked client dataset valid.
Hypothesis client_logs : logs_calls client log.
Hypothesis process_calls : forall sym, asks_only asked (process sym).

Local Abbreviation step := (worker client process TARGET_SYMBOLS).
Local Abbreviation run := (run_schedule client process TARGET_SYMBOLS).
Local Abbreviation invariant :=
  (pool_invariant asked dataset valid process TARGET_SYMBOLS).

(** The calls logged so far and the calls still to come from the
    symbols in evaluation are, together, the calls of the symbols below
    the cursor. *)
Local Abbreviation accounted p :=
  (Permutation (log (world p) ++ all_pending dataset (workers p))
               (log0 ++ expected_calls dataset process (take (index p) TARGET_SYMBOLS))).

Lemma pending_insert (ws : list WorkerState) i s s' :
  ws !! i = Some s ->
  exists before after,
    all_pending dataset ws = before ++ pending_calls dataset s ++ after
    /\ all_pending dataset (<[i := s']> ws) = before ++ pending_calls dataset s' ++ after.
Proof.
  intros Hi. destruct (insert_split ws i s s' Hi) as (b & a & Hold & Hnew).
  exists (all_pending dataset b), (all_pending dataset a).
  rewrite Hnew. rewrite Hold at 1. unfold all_pending.
  rewrite !map_app, !concat_app. cbn [map concat]. auto.
Qed.

Lemma expected_snoc syms sym :
  expected_calls dataset process (syms ++ [sym])
  = expected_calls dataset process syms ++ task_calls dataset (process sym).
Proof.
  unfold expected_calls. rewrite map_app, concat_app. cbn. rewrite app_nil_r. reflexivity.
Qed.

Lemma step_accounted i (p p' : Pool W) :
  invariant p -> step i p = Some p' -> accounted p -> accounted p'.
Proof.
  intros [Hv Hcalls _ _ _ _ _] Hstep Hacc. unfold worker in Hstep.
  destruct (workers p !! i) as [s|] eqn:Hi; [|discriminate].
  destruct s as [|[result|sym itv limit k]|]; [| | |discriminate].
  - destruct (index p <? total TARGET_SYMBOLS)%nat.
    + destruct (TARGET_SYMBOLS !! index p) as [sym|] eqn:Hsym; [|discriminate].
      injection Hstep as <-. cbn [world index workers].
      destruct (pending_insert _ i _ (InProcessSymbol (process sym)) Hi)
        as (before & after & Hold & Hnew).
      rewrite Hnew. rewrite Hold in Hacc. cbn [pending_calls app] in *.
      rewrite (take_S_r _ _ _ Hsym), expected_snoc.
      rewrite (app_assoc log0), <- Hacc. solve_Permutation.
    + injection Hstep as <-. cbn [world index workers].
      destruct (pending_insert _ i _ Terminated Hi)
        as (before & after & Hold & Hnew).
      rewrite Hnew. rewrite Hold in Hacc. exact Hacc.
  - injection Hstep as <-. cbn [world index workers].
    destruct (pending_insert _ i _ AtLoopTest Hi)
      as (before & after & Hold & Hnew).
    rewrite Hnew. rewrite Hold in Hacc. exact Hacc.
  - pose proof (client_logs sym itv limit (world p)) as Hlog.
    assert (Hask : asks_only asked (AwaitKlines sym itv limit k)).
    { rewrite Forall_lookup in Hcalls. exact (Hcalls i _ Hi). }
    destruct Hask as [Hasked _].
    pose proof (deterministic_value _ _ _ _ client_deterministic
                  sym itv limit (world p) Hasked Hv) as Hvalue.
    destruct (client sym itv limit (world p)) as [closes w'].
    cbn [fst snd] in Hlog, Hvalue. subst closes.
    injection Hstep as <-. cbn [world index workers].
    destruct (pending_insert _ i _ (InProcessSymbol (k (dataset sym itv limit))) Hi)
      as (before & after & Hold & Hnew).
    rewrite Hnew, Hlog. rewrite Hold in Hacc. cbn [pending_calls task_calls] in *.
    rewrite <- Hacc. solve_Permutation.
Qed.

Lemma run_accounted schedule (p : Pool W) :
  invariant p -> accounted p ->
  invariant (run schedule p) /\ accounted (run schedule p).
Proof.
  revert p. induction schedule as [|i rest IH]; intros p Hp Hacc; [auto|].
  cbn [run_schedule].
  destruct (step i p) as [p'|] eqn:E; cbn [default]; [|apply IH; assumption].
  apply IH.
  - eapply step_invariant; eassumption.
  - eapply step_accounted; eassumption.
Qed.

Lemma settled_pending (ws : list WorkerState) :
  forallb is_terminated ws = true -> all_pending dataset ws = [].
Proof.
  induction ws as [|s ws IH]; [reflexivity|]. cbn [forallb].
  intros H. apply andb_true_iff in H as [Hs Hws].
  unfold all_pending in *. cbn [map concat]. rewrite (IH Hws).
  destruct s; try discriminate. reflexivity.
Qed.

Lemma settled_calls CONCURRENCY w schedule :
  log w = log0 ->
  (1 <= CONCURRENCY)%nat ->
  valid w ->
  let p := run schedule (start_workers TARGET_SYMBOLS CONCURRENCY w) in
  all_settled p = true ->
  Permutation (log (world p)) (log0 ++ expected_calls dataset process TARGET_SYMBOLS).
Proof.
  intros Hlog0 Hc Hw p Hsettled.
  destruct (run_accounted schedule (start_workers TARGET_SYMBOLS CONCURRENCY w))
    as [Hinv Hacc].
  { eapply start_invariant; eassumption. }
  { cbn. unfold all_pending. rewrite Hlog0.
    assert (Hidle : forall n, concat (map (pending_calls dataset) (replicate n AtLoopTest)) = []).
    { induction n as [|n IHn]; [reflexivity | exact IHn]. }
    rewrite Hidle. reflexivity. }
  fold p in Hinv, Hacc.
  destruct (settled_pool client asked dataset valid process TARGET_SYMBOLS
              client_deterministic process_calls CONCURRENCY w schedule Hc Hw Hsettled)
    as (_ & Hassigned & _).
  fold p in Hassigned.
  assert (Hend : index p = total TARGET_SYMBOLS).
  { pose proof (inv_assigned _ _ _ _ _ _ Hinv) as Has. rewrite Hassigned in Has.
    apply (f_equal (@length nat)) in Has. rewrite !length_seq in Has. lia. }
  unfold all_settled in Hsettled.
  rewrite (settled_pending _ Hsettled), app_nil_r, Hend in Hacc.
  rewrite take_ge in Hacc by (unfold total; lia).
  exact Hacc.
Qed.
End CallVolume.

Section StageCalls.
Import Num Scanner Trace.

Lemma processSymbol_task_calls cfg meta rankMap dataset sym :
  task_calls dataset (processSymbol cfg meta rankMap sym)
  = stage_calls dataset (Client.rsiLimit cfg) sym.
Proof.
  unfold processSymbol, stage_calls, Qlt_bool. cbn [task_calls].
  destruct (Qle_bool 90 (RSI.calculateRSI (dataset sym "1h" (Client.rsiLimit cfg)) 6));
    cbn [negb task_calls]; [|reflexivity].
  destruct (negb (Qle_bool 80 (RSI.calculateRSI (dataset sym "4h" (Client.rsiLimit cfg)) 6)));
    reflexivity.
Qed.


Lemma real_client_logs cfg ex : logs_calls (real_client cfg ex) Client.calls.
Proof.
  intros sym itv limit w. apply (fetchKlines_logs cfg ex sym itv limit w).
Qed.

End StageCalls.

(** ** The second stage, and a failed request *)

Section StageB.
Import Num Client Freshness Scanner.



(** X18. A symbol whose request for the 1h series fails is dropped: the
    accessor answers with the empty list, which reads 0, so the
    evaluation returns no match after that one call, asks nothing for
    the 4h series, and leaves nothing in the cache. *)
Theorem processSymbol_failed_request
        (cfg : Config) (ex : Exchange) (meta : Metadata)
        (rankMap : gmap string nat) (sym : string) (w : World) :
  kline_miss cfg (now_at ex (ticks w)) w sym "1h" ->
  klines_response ex (S (ticks w)) sym "1h" (rsiLimit cfg) = None ->
  let run := run_task (real_client cfg ex) (processSymbol cfg meta rankMap sym) w in
  fst run = None
  /\ calls (snd run) = calls w ++ [(sym, "1h")]
  /\ requests (snd run) = requests w ++ [(sym, "1h")]
  /\ cache_klines (snd run) = cache_klines w.
Proof.
  intros Hmiss Hanswer run.
  assert (Hrun : run = (None, log_request sym "1h"
                                (snd (Date_now ex (log_call sym "1h" w))))).
  { unfold run, processSymbol. cbn [run_task]. unfold real_client.
    rewrite (fetchKlines_miss _ _ _ _ _ _ Hmiss). cbv zeta. rewrite Hanswer.
    reflexivity. }
  rewrite Hrun. cbn. auto.
Qed.

Lemma processSymbol_failed_request_witness :
  let down := {| now_at := fun _ => 1000%Z;
                 klines_response := fun _ _ _ _ => None;
                 products_response := fun _ => ProductsError |} in
  let run := run_task (real_client CONFIG down)
                      (processSymbol CONFIG Scenario.meta ∅ "AUSDT") initial_world in
  fst run = None /\ calls (snd run) = [("AUSDT", "1h")].
Proof.
  cbv zeta.
  destruct (processSymbol_failed_request CONFIG
              {| now_at := fun _ => 1000%Z;
                 klines_response := fun _ _ _ _ => None;
                 products_response := fun _ => ProductsError |}
              Scenario.meta ∅ "AUSDT" initial_world) as (Hnone & Hcalls & _).
  - intros entry E. vm_compute in E. discriminate.
  - reflexivity.
  - split; [exact Hnone | exact Hcalls].
Defined.
End StageB.

(** ** A scan over a warm cache *)

Section WorldInvariant.
Import Scanner.
Context {W : Type}.
Variable client : DataClient W.
Variable process : string -> Task (option ScanResult).
Variable TARGET_SYMBOLS : list string.
Variable asked : string -> string -> nat -> Prop.
Variable kept : W -> Prop.

Hypothesis client_keeps :
  forall sym itv limit w, asked sym itv limit -> kept w -> kept (snd (client sym itv limit w)).
Hypothesis candidates_ask :
  forall sym, In sym TARGET_SYMBOLS -> asks_only asked (process sym).

Local Abbreviation step := (worker client process TARGET_SYMBOLS).
Local Abbreviation run := (run_schedule client process TARGET_SYMBOLS).

(** A property of the client's state that every call of the candidates
    keeps is kept by the whole pool. *)
Lemma step_keeps i (p p' : Pool W) :
  step i p = Some p' ->
  kept (world p) /\ Forall (calls_within asked) (workers p) ->
  kept (world p') /\ Forall (calls_within asked) (workers p').
Proof.
  intros Hstep [Hw Hws]. unfold worker in Hstep.
  destruct (workers p !! i) as [s|] eqn:Hi; [|discriminate].
  assert (Hs : calls_within asked s).
  { rewrite Forall_lookup in Hws. exact (Hws i s Hi). }
  destruct s as [|[result|sym itv limit k]|]; [| | |discriminate].
  - destruct (index p <? total TARGET_SYMBOLS)%nat.
    + destruct (TARGET_SYMBOLS !! index p) as [sym|] eqn:Hsym; [|discriminate].
      injection Hstep as <-. cbn [world workers].
      split; [exact Hw|]. apply Forall_insert; [exact Hws|].
      apply candidates_ask. apply list_elem_of_In.
      eapply list_elem_of_lookup_2. exact Hsym.
    + injection Hstep as <-. cbn [world workers].
      split; [exact Hw|]. apply Forall_insert; [exact Hws | exact I].
  - injection Hstep as <-. cbn [world workers].
    split; [exact Hw|]. apply Forall_insert; [exact Hws | exact I].
  - destruct Hs as [Hasked Hnext].
    pose proof (client_keeps sym itv limit (world p) Hasked Hw) as Hkept.
    destruct (client sym itv limit (world p)) as [closes w'].
    injection Hstep as <-. cbn [world workers].
    split; [exact Hkept|]. apply Forall_insert; [exact Hws | apply Hnext].
Qed.

Lemma run_keeps CONCURRENCY w schedule :
  kept w ->
  kept (world (run schedule (start_workers TARGET_SYMBOLS CONCURRENCY w))).
Proof.
  intros Hw.
  assert (Hfrom : forall (p : Pool W),
            kept (world p) /\ Forall (calls_within asked) (workers p) ->
            kept (world (run schedule p))
            /\ Forall (calls_within asked) (workers (run schedule p))).
  { induction schedule as [|i rest IH]; intros p Hp; [exact Hp|].
    cbn [run_schedule]. apply IH.
    destruct (step i p) as [p'|] eqn:E; cbn [default]; [|exact Hp].
    eapply step_keeps; eassumption. }
  apply Hfrom. cbn. split; [exact Hw|].
  apply Forall_forall. intros s Hs.
  apply elem_of_replicate in Hs as [-> _]. exact I.
Qed.
End WorldInvariant.

Section WarmScan.
Import Client Freshness Scanner.

(** X19. A scan over a warm cache, as a refresh within the lifetime of
    the cache is: every call of every worker is served from the cache,
    so no kline request goes out and the cache stays as it is, for
    every number of workers and every schedule. *)
Theorem warm_scan_sends_no_request
        (cfg : Config) (ex : Exchange) (meta : Metadata) (rankMap : gmap string nat)
        (TARGET_SYMBOLS : list string) (CONCURRENCY : nat) (w : World)
        (schedule : list nat) :
  warm cfg ex TARGET_SYMBOLS w ->
  let p := run_schedule (real_client cfg ex) (processSymbol cfg meta rankMap)
             TARGET_SYMBOLS schedule
             (start_workers TARGET_SYMBOLS CONCURRENCY w) in
  requests (world p) = requests w
  /\ cache_klines (world p) = cache_klines w.
Proof.
  intros Hwarm p.
  pose proof (run_keeps (real_client cfg ex) (processSymbol cfg meta rankMap)
                TARGET_SYMBOLS
                (fun sym itv (limit : nat) =>
                   In sym TARGET_SYMBOLS /\ (itv = "1h" \/ itv = "4h"))
                (fun w' => cache_klines w' = cache_klines w
                           /\ requests w' = requests w
                           /\ (ticks w <= ticks w')%nat)) as Hrun.
  destruct (Hrun) with (CONCURRENCY := CONCURRENCY) (w := w) (schedule := schedule)
    as (Hcache & Hrequests & _).
  - intros sym itv limit w' [Hin Hitv] (Hc & Hr & Ht).
    destruct (Hwarm sym itv Hin Hitv) as (entry & Hentry & Hyoung).
    unfold real_client.
    rewrite (fetchKlines_hit cfg ex sym itv limit w' entry)
      by (rewrite ?Hc; auto).
    cbn. auto.
  - intros sym Hin. unfold processSymbol. cbn.
    split; [auto|]. intros k1h.
    destruct (Num.Qlt_bool _ _); cbn; [exact I|].
    split; [auto|]. intros k4h.
    destruct (Num.Qlt_bool _ _); exact I.
  - auto.
  - split; assumption.
Qed.

Lemma warm_scan_sends_no_request_witness :
  let cached := set_klines
                  {[ cacheKey "AUSDT" "1h" := {| data := Scenario.rising; timestamp := 1000 |};
                     cacheKey "AUSDT" "4h" := {| data := Scenario.rising; timestamp := 1000 |} ]}
                  initial_world in
  let p := run_schedule (real_client CONFIG Scenario.exchange)
             (processSymbol CONFIG Scenario.meta ∅) ["AUSDT"] [0; 0; 0; 0]%nat
             (start_workers ["AUSDT"] 1 cached) in
  requests (world p) = [].
Proof.
  cbv zeta.
  destruct (warm_scan_sends_no_request CONFIG Scenario.exchange Scenario.meta ∅
              ["AUSDT"] 1
              (set_klines
                 {[ cacheKey "AUSDT" "1h" := {| data := Scenario.rising; timestamp := 1000 |};
                    cacheKey "AUSDT" "4h" := {| data := Scenario.rising; timestamp := 1000 |} ]}
                 initial_world)
              [0; 0; 0; 0]%nat) as [Hrequests _].
  - intros sym itv [<-|[]] [->| ->].
    + exists {| data := Scenario.rising; timestamp := 1000 |}.
      split; [vm_compute; reflexivity | intros n _; reflexivity].
    + exists {| data := Scenario.rising; timestamp := 1000 |}.
      split; [vm_compute; reflexivity | intros n _; reflexivity].
  - exact Hrequests.
Defined.
End WarmScan.

(** ** What a row shows for its symbol *)

Section RowMetadata.
Import Num Feeds Scanner.

(** X20. The three maps built from the ticker, the premium index and the
    funding info hold, for a symbol, the value of the last entry of the
    payload with that symbol.  What a row shows falls back to the
    default (0 for the volume and the funding rate, 8 for the funding
    interval) when the payload has no entry for the symbol, when the
    value is 0, and when the fetch failed. *)
Theorem row_metadata_defaults
        (ticker : list TickerItem) (premium : list PremiumIndex)
        (info : list FundingInfo) (s : string) :
  Client.volume_of (fetch24hTicker (Some ticker)) s
  = match list_find (fun item => ticker_symbol item = s) (rev ticker) with
    | Some (_, item) => or_default (quoteVolume item) 0
    | None => 0%Q
    end
  /\ lookup_or (fetchFundingRates (Some premium)) s 0
     = match list_find (fun item => premium_symbol item = s) (rev premium) with
       | Some (_, item) => or_default (lastFundingRate item) 0
       | None => 0%Q
       end
  /\ lookup_or (fetchFundingIntervals (Some info)) s 8
     = match list_find (fun item => funding_symbol item = s) (rev info) with
       | Some (_, item) => or_default (fundingIntervalHours item) 8
       | None => 8%Q
       end
  /\ Client.volume_of (fetch24hTicker None) s = 0%Q
  /\ lookup_or (fetchFundingRates None) s 0 = 0%Q
  /\ lookup_or (fetchFundingIntervals None) s 8 = 8%Q.
Proof.
  unfold Client.volume_of, lookup_or, fetch24hTicker, fetchFundingRates,
    fetchFundingIntervals.
  rewrite !reduce_to_map_lookup, !lookup_empty.
  repeat split;
    match goal with
    | |- context [list_find ?P ?l] => destruct (list_find P l) as [[? ?]|]
    | _ => idtac
    end; reflexivity.
Qed.
End RowMetadata.

(** ** Which base assets are ranked *)

Section RankedAssets.
Import Rank.

End RankedAssets.

(** ** A whole cycle over a steady exchange *)

Section SteadyCycle.
Import Client Scanner.

Lemma fetchProductData_keeps_klines cfg ex w :
  cache_klines (snd (fetchProductData cfg ex w)) = cache_klines w.
Proof.
  unfold fetchProductData. cbn.
  match goal with |- context [if ?c then _ else _] => destruct c end;
    [reflexivity|].
  destruct (products_response ex (S (ticks w))) as [|[] [json_data|]]; reflexivity.
Qed.

Lemma gatherMetadata_keeps_klines cfg ex responses w :
  cache_klines (snd (Cycle.gatherMetadata cfg ex responses w)) = cache_klines w.
Proof.
  unfold Cycle.gatherMetadata.
  pose proof (fetchProductData_keeps_klines cfg ex
                (Feeds.noCache ex (Feeds.noCache ex (Feeds.noCache ex (Feeds.noCache ex w)))))
    as Hp.
  destruct (fetchProductData cfg ex _) as [products w']. exact Hp.
Qed.


End SteadyCycle.

(** ** The batch variant *)

Section BatchLoop.
Import Scanner.
Context {W : Type}.
Variable client : DataClient W.
Variable process : string -> Task (option Batches.Row).
Variable TARGET_SYMBOLS : list string.
Variable BATCH_SIZE : nat.

Local Abbreviation stretch := (Batches.stretch client process TARGET_SYMBOLS BATCH_SIZE).
Local Abbreviation run := (Batches.run_schedule client process TARGET_SYMBOLS BATCH_SIZE).

Lemma batch_run_app s1 s2 (p : Batches.Loop W) : run (s1 ++ s2) p = run s2 (run s1 p).
Proof. revert p. induction s1 as [|j s1 IH]; intros p; [reflexivity | apply IH]. Qed.

(** A promise of the batch can be resumed until it returns. *)
Lemma batch_finish_promise (t : Task (option Batches.Row)) :
  forall j (p : Batches.Loop W) promises,
    Batches.state p = Batches.InBatch promises ->
    promises !! j = Some t ->
    exists n result,
      Batches.state (run (replicate n j) p)
      = Batches.InBatch (<[j := Return result]> promises)
      /\ Batches.i (run (replicate n j) p) = Batches.i p.
Proof.
  induction t as [result|sym itv limit k IH]; intros j p promises Hstate Hj.
  - exists 0%nat, result. cbn. rewrite list_insert_id by exact Hj. auto.
  - assert (Hpending : forallb Batches.settled promises = false).
    { destruct (forallb Batches.settled promises) eqn:E; [|reflexivity].
      rewrite forallb_forall in E.
      apply list_elem_of_lookup_2, list_elem_of_In in Hj.
      specialize (E _ Hj). discriminate. }
    destruct (client sym itv limit (Batches.world p)) as [closes w'] eqn:Hcall.
    set (p' := {| Batches.world := w'; Batches.i := Batches.i p;
                  Batches.results := Batches.results p;
                  Batches.state := Batches.InBatch (<[j := k closes]> promises) |}).
    assert (Hstep : stretch j p = Some p').
    { unfold Batches.stretch. rewrite Hstate, Hpending, Hj, Hcall. reflexivity. }
    destruct (IH closes j p' (<[j := k closes]> promises) eq_refl) as (n & result & Hn & Hi).
    { apply list_lookup_insert_eq. eapply lookup_lt_Some. exact Hj. }
    exists (S n), result. cbn [replicate Batches.run_schedule]. rewrite Hstep. cbn [from_option id].
    rewrite Hn, Hi, list_insert_insert_eq. auto.
Qed.

(** The promises of a batch can all be brought to their return. *)
Lemma batch_finish_all (rest : list (Task (option Batches.Row))) :
  forall done (p : Batches.Loop W),
    Batches.state p = Batches.InBatch (done ++ rest) ->
    forallb Batches.settled done = true ->
    exists schedule promises,
      Batches.state (run schedule p) = Batches.InBatch promises
      /\ forallb Batches.settled promises = true
      /\ Batches.i (run schedule p) = Batches.i p.
Proof.
  induction rest as [|t rest IH]; intros done p Hstate Hdone.
  - exists [], done. rewrite app_nil_r in Hstate. auto.
  - destruct (batch_finish_promise t (length done) p (done ++ t :: rest) Hstate)
      as (n & result & Hn & Hi).
    { rewrite lookup_app_r by lia. rewrite Nat.sub_diag. reflexivity. }
    rewrite insert_app_r_alt in Hn by lia. rewrite Nat.sub_diag in Hn. cbn in Hn.
    destruct (IH (done ++ [Return result]) (run (replicate n (length done)) p))
      as (schedule & promises & Hs & Hall & Hi').
    { rewrite Hn, <- app_assoc. reflexivity. }
    { rewrite forallb_app, Hdone. reflexivity. }
    exists (replicate n (length done) ++ schedule), promises.
    rewrite batch_run_app. split; [exact Hs|]. split; [exact Hall | congruence].
Qed.

(** With a batch size of at least 1 the loop can always be brought to
    its end. *)
Lemma batch_loop_ends (remaining : nat) :
  (1 <= BATCH_SIZE)%nat ->
  forall (p : Batches.Loop W),
    (length TARGET_SYMBOLS - Batches.i p <= remaining)%nat ->
    Batches.state p = Batches.AtLoopTest ->
    exists schedule, Batches.state (run schedule p) = Batches.Done.
Proof.
  intros Hsize. induction remaining as [|remaining IH]; intros p Hrem Hstate.
  - exists [0%nat]. cbn. unfold Batches.stretch. rewrite Hstate.
    destruct (Nat.ltb_spec (Batches.i p) (length TARGET_SYMBOLS)); [lia|]. reflexivity.
  - destruct (Nat.ltb_spec (Batches.i p) (length TARGET_SYMBOLS)) as [Hlt|Hge].
    + set (batch := Batches.slice (Batches.i p) (Batches.i p + BATCH_SIZE) TARGET_SYMBOLS).
      set (p1 := {| Batches.world := Batches.world p; Batches.i := Batches.i p;
                    Batches.results := Batches.results p;
                    Batches.state := Batches.InBatch (map process batch) |}).
      assert (Hstep1 : stretch 0 p = Some p1).
      { unfold Batches.stretch. rewrite Hstate.
        destruct (Nat.ltb_spec (Batches.i p) (length TARGET_SYMBOLS)); [|lia].
        reflexivity. }
      destruct (batch_finish_all (map process batch) [] p1 eq_refl eq_refl)
        as (s2 & promises & Hs2 & Hall & Hi2).
      set (p2 := run s2 p1) in *.
      set (p3 := {| Batches.world := Batches.world p2;
                    Batches.i := Batches.i p2 + BATCH_SIZE;
                    Batches.results := Batches.results p2 ++ omap Batches.resolved promises;
                    Batches.state := Batches.AtLoopTest |}).
      assert (Hstep3 : stretch 0 p2 = Some p3).
      { unfold Batches.stretch. rewrite Hs2, Hall. reflexivity. }
      destruct (IH p3) as (s4 & Hdone).
      { cbn. rewrite Hi2. cbn. lia. }
      { reflexivity. }
      exists ([0%nat] ++ s2 ++ [0%nat] ++ s4).
      rewrite batch_run_app. cbn [Batches.run_schedule]. rewrite Hstep1. cbn [from_option id].
      rewrite batch_run_app. fold p2.
      rewrite batch_run_app. cbn [Batches.run_schedule]. rewrite Hstep3. cbn [from_option id].
      exact Hdone.
    + exists [0%nat]. cbn. unfold Batches.stretch. rewrite Hstate.
      destruct (Nat.ltb_spec (Batches.i p) (length TARGET_SYMBOLS)); [lia|]. reflexivity.
Qed.

Lemma batch_loop_ends_from (p : Batches.Loop W) :
  (1 <= BATCH_SIZE)%nat ->
  exists schedule, Batches.state (run schedule p) = Batches.Done.
Proof.
  intros Hsize. destruct (Batches.state p) as [|promises|] eqn:Hstate.
  - apply (batch_loop_ends (length TARGET_SYMBOLS - Batches.i p) Hsize p);
      [lia | exact Hstate].
  - destruct (batch_finish_all promises [] p Hstate eq_refl)
      as (s1 & promises' & Hs1 & Hall & _).
    set (p1 := run s1 p) in *.
    set (p2 := {| Batches.world := Batches.world p1;
                  Batches.i := Batches.i p1 + BATCH_SIZE;
                  Batches.results := Batches.results p1 ++ omap Batches.resolved promises';
                  Batches.state := Batches.AtLoopTest |}).
    assert (Hstep : stretch 0 p1 = Some p2).
    { unfold Batches.stretch. rewrite Hs1, Hall. reflexivity. }
    destruct (batch_loop_ends (length TARGET_SYMBOLS - Batches.i p2) Hsize p2)
      as (s3 & Hdone); [lia | reflexivity |].
    exists (s1 ++ [0%nat] ++ s3).
    rewrite batch_run_app. fold p1.
    rewrite batch_run_app. cbn [Batches.run_schedule]. rewrite Hstep. cbn [from_option id].
    exact Hdone.
  - exists []. exact Hstate.
Qed.

(** With a batch size of 0 the loop goes round on empty batches. *)
Lemma batch_zero_stretch j (p p' : Batches.Loop W) :
  BATCH_SIZE = 0%nat ->
  TARGET_SYMBOLS <> [] ->
  stretch j p = Some p' ->
  Batches.i p = 0%nat /\ Batches.results p = []
  /\ (Batches.state p = Batches.AtLoopTest \/ Batches.state p = Batches.InBatch []) ->
  Batches.world p' = Batches.world p
  /\ Batches.i p' = 0%nat /\ Batches.results p' = []
  /\ (Batches.state p' = Batches.AtLoopTest \/ Batches.state p' = Batches.InBatch []).
Proof.
  intros Hzero Hne Hstep (Hi & Hres & Hstate). unfold Batches.stretch in Hstep.
  destruct Hstate as [Hstate|Hstate]; rewrite Hstate in Hstep.
  - rewrite Hi, Hzero in Hstep.
    destruct (Nat.ltb_spec 0 (length TARGET_SYMBOLS)) as [_|Hlen].
    + injection Hstep as <-. cbn. unfold Batches.slice. cbn. auto.
    + destruct TARGET_SYMBOLS; [congruence | cbn in Hlen; lia].
  - cbn in Hstep. injection Hstep as <-. cbn. rewrite Hi, Hzero, Hres. auto.
Qed.

Lemma batch_zero_run schedule (p : Batches.Loop W) :
  BATCH_SIZE = 0%nat ->
  TARGET_SYMBOLS <> [] ->
  Batches.i p = 0%nat /\ Batches.results p = []
  /\ (Batches.state p = Batches.AtLoopTest \/ Batches.state p = Batches.InBatch []) ->
  Batches.world (run schedule p) = Batches.world p
  /\ Batches.ended (run schedule p) = false.
Proof.
  intros Hzero Hne. revert p.
  induction schedule as [|j rest IH]; intros p Hp.
  - cbn [Batches.run_schedule]. split; [reflexivity|]. unfold Batches.ended.
    destruct Hp as (_ & _ & [H | H]); rewrite H; reflexivity.
  - cbn [Batches.run_schedule].
    destruct (stretch j p) as [p'|] eqn:E; cbn [from_option id]; [|apply IH, Hp].
    destruct (batch_zero_stretch j p p' Hzero Hne E Hp) as (Hw & Hp').
    rewrite <- Hw. apply IH. exact Hp'.
Qed.
End BatchLoop.

Section BatchAccounting.
Import Scanner.
Context {W : Type}.
Variable client : DataClient W.
Variable asked : string -> string -> nat -> Prop.
Variable dataset : string -> string -> nat -> list Q.
Variable valid : W -> Prop.
Variable process : string -> Task (option Batches.Row).
Variable TARGET_SYMBOLS : list string.
Variable BATCH_SIZE : nat.

Hypothesis client_deterministic : Deterministic asked client dataset valid.
Hypothesis process_calls : forall sym, asks_only asked (process sym).

Local Abbreviation stretch := (Batches.stretch client process TARGET_SYMBOLS BATCH_SIZE).
Local Abbreviation run := (Batches.run_schedule client process TARGET_SYMBOLS BATCH_SIZE).
Local Abbreviation invariant :=
  (Batches.loop_invariant asked dataset valid process TARGET_SYMBOLS BATCH_SIZE).
Local Abbreviation outcomes := (Batches.outcomes dataset process).

(** Dropping the [null]s of a mapped list. *)
Lemma omap_id_map {A B : Type} (f : A -> option B) (syms : list A) :
  omap id (map f syms) = omap f syms.
Proof.
  induction syms as [|sym syms IH]; cbn; [|rewrite IH]; reflexivity.
Qed.

Lemma map_insert_same {A B : Type} (f : A -> B) (l : list A) j x y :
  l !! j = Some x -> f y = f x -> map f (<[j := y]> l) = map f l.
Proof.
  intros Hj Hf. destruct (insert_split l j x y Hj) as (before & after & Hold & Hnew).
  rewrite Hnew. rewrite Hold at 1. rewrite !map_app. cbn [map]. rewrite Hf. reflexivity.
Qed.

Lemma resolved_values (promises : list (Task (option Batches.Row))) :
  forallb Batches.settled promises = true ->
  omap Batches.resolved promises = omap id (map (task_value dataset) promises).
Proof.
  induction promises as [|t promises IH]; [reflexivity|]. cbn [forallb].
  intros H. apply andb_true_iff in H as [Ht Hrest].
  destruct t as [result|]; [|discriminate].
  cbn. rewrite (IH Hrest). reflexivity.
Qed.

Lemma batch_step_invariant j (p p' : Batches.Loop W) :
  invariant p -> stretch j p = Some p' -> invariant p'.
Proof.
  intros (Hv & Hres & Hst) Hstep. unfold Batches.stretch in Hstep.
  destruct (Batches.state p) as [|promises|] eqn:Hstate; [| |discriminate].
  - destruct (Nat.ltb_spec (Batches.i p) (length TARGET_SYMBOLS)) as [Hlt|Hge];
      injection Hstep as <-; unfold Batches.loop_invariant; cbn.
    + split; [exact Hv|]. split; [exact Hres|]. split.
      * apply Forall_forall. intros t Ht.
        apply list_elem_of_In, in_map_iff in Ht as (sym & <- & _). apply process_calls.
      * rewrite map_map. reflexivity.
    + auto.
  - destruct Hst as [Hasks Hvalues].
    destruct (forallb Batches.settled promises) eqn:Hall.
    + injection Hstep as <-. unfold Batches.loop_invariant. cbn.
      split; [exact Hv|]. split; [|exact I].
      rewrite Hres, (resolved_values _ Hall), Hvalues, omap_id_map.
      unfold Batches.outcomes, Batches.slice. rewrite <- omap_app.
      replace (Batches.i p + BATCH_SIZE - Batches.i p)%nat with BATCH_SIZE by lia.
      rewrite take_take_drop. reflexivity.
    + destruct (promises !! j) as [[result|sym itv limit k]|] eqn:Hj;
        [discriminate| |discriminate].
      assert (Hask : asks_only asked (AwaitKlines sym itv limit k)).
      { rewrite Forall_lookup in Hasks. exact (Hasks j _ Hj). }
      destruct Hask as [Hasked Hnext].
      pose proof (deterministic_value _ _ _ _ client_deterministic
                    sym itv limit (Batches.world p) Hasked Hv) as Hvalue.
      pose proof (deterministic_valid _ _ _ _ client_deterministic
                    sym itv limit (Batches.world p) Hasked Hv) as Hvalid.
      destruct (client sym itv limit (Batches.world p)) as [closes w'].
      cbn [fst snd] in Hvalue, Hvalid. subst closes.
      injection Hstep as <-. unfold Batches.loop_invariant. cbn.
      split; [exact Hvalid|]. split; [exact Hres|]. split.
      * apply Forall_insert; [exact Hasks | apply Hnext].
      * transitivity (map (task_value dataset) promises); [|exact Hvalues].
        apply (map_insert_same _ _ _ _ _ Hj). reflexivity.
Qed.

Lemma batch_run_invariant schedule (p : Batches.Loop W) :
  invariant p -> invariant (run schedule p).
Proof.
  revert p. induction schedule as [|j rest IH]; intros p Hp; [exact Hp|].
  cbn [Batches.run_schedule]. apply IH.
  destruct (stretch j p) as [p'|] eqn:E; cbn [from_option id]; [|exact Hp].
  eapply batch_step_invariant; eassumption.
Qed.

(** Once the loop has ended [results] holds the matches of the candidate
    list, in candidate order. *)
Lemma batch_ended_results w schedule :
  valid w ->
  Batches.ended (run schedule (Batches.start w)) = true ->
  Batches.results (run schedule (Batches.start w)) = outcomes TARGET_SYMBOLS.
Proof.
  intros Hw Hended.
  destruct (batch_run_invariant schedule (Batches.start w)) as (_ & Hres & Hst).
  { unfold Batches.loop_invariant. cbn. auto. }
  unfold Batches.ended in Hended.
  destruct (Batches.state _); try discriminate.
  rewrite Hres, take_ge by lia. reflexivity.
Qed.
End BatchAccounting.

Section BatchScan.
Import Num Scanner.

Lemma batch_processSymbol_calls cfg stats fundingMap sym :
  asks_only (stage_call cfg) (Batches.processSymbol cfg stats fundingMap sym).
Proof.
  unfold Batches.processSymbol, stage_call. cbn. split; [auto|]. intros k1h.
  destruct (Qlt_bool _ _); cbn; [exact I|]. split; [auto|]. intros k4h.
  destruct (Qlt_bool _ _); exact I.
Qed.

Lemma batch_processSymbol_value cfg stats fundingMap dataset sym :
  task_value dataset (Batches.processSymbol cfg stats fundingMap sym) =
  if qualifies dataset (Client.rsiLimit cfg) sym
  then Some {| Batches.symbol := sym;
               Batches.price := Batches.price_of stats sym;
               Batches.volume := Client.volume_of stats sym;
               Batches.funding := lookup_or fundingMap sym 0;
               Batches.rsi1h := RSI.calculateRSI (dataset sym "1h" (Client.rsiLimit cfg)) 6;
               Batches.rsi4h := RSI.calculateRSI (dataset sym "4h" (Client.rsiLimit cfg)) 6 |}
  else None.
Proof.
  unfold task_value, Batches.processSymbol, qualifies, mock_client. cbn [run_task fst].
  unfold Qlt_bool.
  destruct (Qle_bool 90 _); cbn [negb andb run_task fst]; [|reflexivity].
  destruct (Qle_bool 80 _); reflexivity.
Qed.

Lemma batch_outcomes_symbols cfg stats fundingMap dataset syms :
  map Batches.symbol
      (Batches.outcomes dataset (Batches.processSymbol cfg stats fundingMap) syms)
  = List.filter (qualifies dataset (Client.rsiLimit cfg)) syms.
Proof.
  unfold Batches.outcomes. induction syms as [|s syms IH]; [reflexivity|].
  cbn [omap list_omap List.filter]. rewrite batch_processSymbol_value.
  destruct (qualifies dataset (Client.rsiLimit cfg) s); cbn [map Batches.symbol].
  - f_equal. exact IH.
  - exact IH.
Qed.

Lemma batch_by_volume_desc_key a b :
  (Batches.by_volume_desc a b <= 0)%Q <-> (Batches.volume b <= Batches.volume a)%Q.
Proof. unfold Batches.by_volume_desc. split; intros H; lra. Qed.



(** X24. With a batch size of 0 and at least one candidate the batch
    variant never gets to render: every batch is empty, the loop
    variable stays at 0, and the loop goes round without a call to the
    data client, for every schedule. *)
Theorem batch_size_zero_never_renders
        {W : Type} (cfg : Client.Config) (client : DataClient W)
        (symbols : list string) (stats : gmap string Client.Ticker)
        (fundingMap : gmap string Q) (w : W) (schedule : list nat) :
  Batches.highVolumeSymbols cfg symbols stats <> [] ->
  Batches.updateData cfg 0 client symbols stats fundingMap w schedule
  = Batches.StillScanning
  /\ Batches.world
       (Batches.run_schedule client (Batches.processSymbol cfg stats fundingMap)
          (Batches.highVolumeSymbols cfg symbols stats) 0 schedule (Batches.start w))
     = w.
Proof.
  intros Hne. unfold Batches.updateData.
  destruct (batch_zero_run client (Batches.processSymbol cfg stats fundingMap)
              (Batches.highVolumeSymbols cfg symbols stats) 0 schedule
              (Batches.start w) eq_refl Hne) as [Hworld Hended].
  { cbn. auto. }
  rewrite Hended. split; [reflexivity | exact Hworld].
Qed.

Lemma batch_size_zero_never_renders_witness :
  Batches.updateData Client.CONFIG 0 Scenario.client (symbols Scenario.meta)
                     (stats Scenario.meta) ∅ tt Scenario.round_robin
  = Batches.StillScanning.
Proof.
  apply (batch_size_zero_never_renders Client.CONFIG Scenario.client
           (symbols Scenario.meta) (stats Scenario.meta) ∅ tt Scenario.round_robin).
  vm_compute. discriminate.
Defined.

(** X25. The pool variant and the batch variant select alike.  Over the
    same deterministic data client, the same symbols and the same
    ticker, with at least one worker and a batch size of at least 1:
    whenever both have rendered, whatever the two schedules were, the
    symbols of the two tables are the same, each as often. *)
Theorem pool_and_batches_select_alike
        {W : Type} (cfg : Client.Config) (BATCH_SIZE : nat) (client : DataClient W)
        (dataset : string -> string -> nat -> list Q) (valid : W -> Prop)
        (meta : Metadata) (items : list Rank.Product) (fundingMap : gmap string Q)
        (w w' : W) (schedule schedule' : list nat)
        (matches : list ScanResult) (matches' : list Batches.Row) :
  Deterministic (stage_call cfg) client dataset valid ->
  valid w -> valid w' ->
  (1 <= Client.concurrency cfg)%nat ->
  (1 <= BATCH_SIZE)%nat ->
  productList meta = Client.ProductList items ->
  updateData cfg client meta w schedule = Rendered matches ->
  Batches.updateData cfg BATCH_SIZE client (symbols meta) (stats meta) fundingMap
                     w' schedule'
  = Batches.Rendered matches' ->
  Permutation (map symbol matches) (map Batches.symbol matches').
Proof.
  intros Hdet Hw Hw' Hconc Hsize Hlist Hpool Hbatch.
  unfold updateData in Hpool. rewrite Hlist in Hpool.
  destruct (all_settled _) eqn:Hsettled; [|discriminate]. injection Hpool as <-.
  destruct (settled_pool client (stage_call cfg) dataset valid
              (processSymbol cfg meta (Rank.buildRankMap items))
              (highVolumeSymbols cfg meta) Hdet
              (processSymbol_calls cfg meta (Rank.buildRankMap items))
              (Client.concurrency cfg) w schedule Hconc Hw Hsettled) as (Hres & _ & _).
  unfold Batches.updateData in Hbatch.
  destruct (Batches.ended _) eqn:Hended; [|discriminate]. injection Hbatch as <-.
  rewrite (batch_ended_results client (stage_call cfg) dataset valid
             (Batches.processSymbol cfg (stats meta) fundingMap)
             (Batches.highVolumeSymbols cfg (symbols meta) (stats meta)) BATCH_SIZE
             Hdet (batch_processSymbol_calls cfg (stats meta) fundingMap)
             w' schedule' Hw' Hended).
  rewrite !(sort_Permutation _), Hres, outcomes_symbols, batch_outcomes_symbols.
  reflexivity.
Qed.

Lemma pool_and_batches_select_alike_witness :
  exists matches matches',
    updateData Client.CONFIG Scenario.client Scenario.meta tt Scenario.round_robin
    = Rendered matches
    /\ Batches.updateData Client.CONFIG 2 Scenario.client (symbols Scenario.meta)
                          (stats Scenario.meta) ∅ tt
                          [0; 0; 0; 1; 0; 0; 0; 0; 0; 0; 0]%nat
       = Batches.Rendered matches'
    /\ Permutation (map symbol matches) (map Batches.symbol matches').
Proof.
  eexists. eexists. split; [vm_compute; reflexivity|]. split; [vm_compute; reflexivity|].
  apply (pool_and_batches_select_alike Client.CONFIG 2 Scenario.client
           Scenario.dataset Scenario.always Scenario.meta [] ∅ tt tt
           Scenario.round_robin [0; 0; 0; 1; 0; 0; 0; 0; 0; 0; 0]%nat).
  - apply mock_client_deterministic.
  - exact I.
  - exact I.
  - vm_compute. lia.
  - lia.
  - reflexivity.
  - vm_compute. reflexivity.
  - vm_compute. reflexivity.
Defined.
End BatchScan.
